(** * FoodieFind: the video-to-recommendation pipeline

    A shallow embedding of the processing core of the backend
    (services/youtubeService.js, services/aiService.js,
    services/timestampService.js, services/supabaseService.js and the
    processing router) together with the properties of its specification.

    JavaScript strings are modelled as Rocq strings read as sequences of
    code units below 256; numbers that come from JSON are rationals, caption
    offsets and durations are integers.  Exceptions are values of [result].
    The relational store is an explicit state: the [videos] table is a map
    keyed by [video_id], the tables of restaurants and recommendations are
    lists in insertion order; the database may answer any request with an
    error of its own, and it enforces the unique keys of the schema.  What
    the external services answer is a parameter of the router. *)

From Stdlib Require Import ZArith QArith String Ascii List Bool Lia.
From stdpp Require Import gmap strings list sorting.

Local Open Scope string_scope.
Local Open Scope list_scope.
Local Open Scope Z_scope.

(** ** JavaScript values and strings *)

Module JS.

(** Outcome of a call that may throw: [Throw msg] is an [Error] whose
    [message] is [msg]. *)
Inductive result (A : Type) : Type :=
| Ok (a : A)
| Throw (msg : string).
Arguments Ok {A} a.
Arguments Throw {A} msg.

Definition bind {A B} (r : result A) (k : A -> result B) : result B :=
  match r with
  | Ok a => k a
  | Throw m => Throw m
  end.

(** [try { r } catch (e) { h e.message }] *)
Definition try_catch {A} (r : result A) (h : string -> result A) : result A :=
  match r with
  | Ok a => Ok a
  | Throw m => h m
  end.

Fixpoint mapM {A B} (f : A -> result B) (l : list A) : result (list B) :=
  match l with
  | [] => Ok []
  | x :: xs =>
      match f x with
      | Throw m => Throw m
      | Ok y =>
          match mapM f xs with
          | Throw m => Throw m
          | Ok ys => Ok (y :: ys)
          end
      end
  end.

(** Scalar JSON values as JavaScript sees them after [JSON.parse]; a
    missing property reads as [JUndefined]. *)
Inductive jsval : Type :=
| JUndefined
| JNull
| JBool (b : bool)
| JNum (q : Q)
| JStr (s : string).

(** ToBoolean *)
Definition truthy (v : jsval) : bool :=
  match v with
  | JUndefined | JNull => false
  | JBool b => b
  | JNum q => negb (Qeq_bool q 0)
  | JStr s => negb (String.eqb s "")
  end.

(** ToNumber; [None] is NaN.  The numeric value of a string is the
    business of [StringToNumber], which the model takes as given. *)
Definition toNumber (StringToNumber : string -> option Q) (v : jsval) : option Q :=
  match v with
  | JUndefined => None
  | JNull => Some 0%Q
  | JBool b => Some (if b then 1%Q else 0%Q)
  | JNum q => Some q
  | JStr s => StringToNumber s
  end.

(** [v >= q] for a number literal [q]: false when [v] converts to NaN. *)
Definition ge (StringToNumber : string -> option Q) (v : jsval) (q : Q) : bool :=
  match toNumber StringToNumber v with
  | Some n => Qle_bool q n
  | None => false
  end.

(** [v || d] *)
Definition or_else (v d : jsval) : jsval := if truthy v then v else d.

(** White space and line terminators removed by [String.prototype.trim],
    among the code units below 256. *)
Definition isWhiteSpace (c : ascii) : bool :=
  let n := nat_of_ascii c in
  ((9 <=? n) && (n <=? 13))%nat || (n =? 32)%nat || (n =? 160)%nat.

Fixpoint trimStart (s : string) : string :=
  match s with
  | EmptyString => EmptyString
  | String c r => if isWhiteSpace c then trimStart r else s
  end.

Fixpoint trimEnd (s : string) : string :=
  match s with
  | EmptyString => EmptyString
  | String c r =>
      match trimEnd r with
      | EmptyString => if isWhiteSpace c then EmptyString else String c EmptyString
      | r' => String c r'
      end
  end.

Definition trim (s : string) : string := trimEnd (trimStart s).

(** [toLowerCase] on code units below 256: A-Z and the accented capitals
    192-222 (without the multiplication sign 215) move up by 32. *)
Definition lowerChar (c : ascii) : ascii :=
  let n := nat_of_ascii c in
  if ((65 <=? n) && (n <=? 90))%nat
     || ((192 <=? n) && (n <=? 222) && negb (n =? 215))%nat
  then ascii_of_nat (n + 32) else c.

Fixpoint toLowerCase (s : string) : string :=
  match s with
  | EmptyString => EmptyString
  | String c r => String (lowerChar c) (toLowerCase r)
  end.

(** [hay.includes(needle)] *)
Fixpoint includes (hay needle : string) : bool :=
  String.prefix needle hay
  || match hay with
     | EmptyString => false
     | String _ r => includes r needle
     end.

(** [s.split(sep)] for a one-character separator: never empty, and
    consecutive separators give empty pieces. *)
Fixpoint split (sep : ascii) (s : string) : list string :=
  match s with
  | EmptyString => [EmptyString]
  | String c r =>
      if Ascii.eqb c sep then EmptyString :: split sep r
      else match split sep r with
           | h :: t => String c h :: t
           | [] => [String c EmptyString]
           end
  end.

(** [l.join(' ')] *)
Definition join (l : list string) : string := String.concat " " l.

Definition strlen (s : string) : Z := Z.of_nat (String.length s).

(** [Number.prototype.toString] on an integer: its decimal digits, with
    a minus sign before them when it is negative.  [digitsOf] writes the
    digits of [n] before [acc], lowest first; [fuel] bounds their
    number. *)
Definition digitChar (d : Z) : ascii := ascii_of_nat (48 + Z.to_nat d).

Fixpoint digitsOf (fuel : nat) (n : Z) (acc : string) : string :=
  match fuel with
  | O => acc
  | S fuel' =>
      let acc' := String (digitChar (n mod 10)) acc in
      if n <? 10 then acc' else digitsOf fuel' (n / 10) acc'
  end.

Definition numberToString (n : Z) : string :=
  if n <? 0
  then String "-" (digitsOf (S (Z.to_nat (Z.log2 (- n)))) (- n) "")
  else digitsOf (S (Z.to_nat (Z.log2 n))) n "".

(** [s.padStart(2, '0')] *)
Definition padStart2 (s : string) : string :=
  match s with
  | String c EmptyString => String "0" (String c EmptyString)
  | EmptyString => "00"
  | _ => s
  end.

(** [s.startsWith(p)] and [s.slice(1)] *)
Definition startsWith (s p : string) : bool := String.prefix p s.

Definition slice1 (s : string) : string :=
  match s with
  | EmptyString => EmptyString
  | String _ r => r
  end.

End JS.

Import JS.

(** ** The captioning library (youtube-transcript) *)

Module YoutubeTranscript.

(** A caption entry as [fetchTranscript] resolves it; [text] is [None]
    when the entry carries no string there, [offset] is in
    milliseconds. *)
Record entry : Type := {
  text : option string;
  offset : Z
}.

End YoutubeTranscript.

(** ** services/youtubeService.js *)

Module YouTubeService.

Definition isDigit (c : ascii) : bool :=
  let n := nat_of_ascii c in ((48 <=? n) && (n <=? 57))%nat.

(** The longest run of digits at the head of [s], and what follows it. *)
Fixpoint spanDigits (s : string) : string * string :=
  match s with
  | EmptyString => (EmptyString, EmptyString)
  | String c r =>
      if isDigit c
      then let '(d, rest) := spanDigits r in (String c d, rest)
      else (EmptyString, s)
  end.

(** [parseInt] of a string of decimal digits. *)
Definition digitsValue (d : string) : Z :=
  fold_left (fun acc c => 10 * acc + (Z.of_nat (nat_of_ascii c) - 48))
            (list_ascii_of_string d) 0.

(** One optional group [(?:(\d+)U)?] of the pattern, for the unit letter
    [u]: the captured digits, if the group matches, and the rest of the
    input.  Every later part of the pattern is optional, so a group that
    can match is taken. *)
Definition group (u : ascii) (s : string) : option string * string :=
  match spanDigits s with
  | (String c d, String u' rest) =>
      if Ascii.eqb u' u then (Some (String c d), rest) else (None, s)
  | _ => (None, s)
  end.

(** What follows the first occurrence of [PT], the only mandatory part
    of the pattern; [None] when the pattern does not match at all. *)
Fixpoint afterPT (s : string) : option string :=
  match s with
  | EmptyString => None
  | String c r =>
      match s with
      | String "P" (String "T" rest) => Some rest
      | _ => afterPT r
      end
  end.

(** [parseInt(match[i]) || 0] *)
Definition captured (g : option string) : Z :=
  match g with
  | Some d => digitsValue d
  | None => 0
  end.

(** [parseDuration(duration)]; [None] is a missing ([null], [undefined])
    duration. *)
Definition parseDuration (duration : option string) : Z :=
  match duration with
  | None => 0
  | Some d =>
      if String.eqb d "" then 0 else
      match afterPT d with
      | None => 0
      | Some r0 =>
          let '(h, r1) := group "H" r0 in
          let '(m, r2) := group "M" r1 in
          let '(s, _) := group "S" r2 in
          captured h * 3600 + captured m * 60 + captured s
      end
  end.

(** The two fields of a video that [isVideoSuitableForProcessing] reads. *)
Record videoData : Type := {
  duration : option string;
  title : string
}.

Definition nonFoodKeywords : list string :=
  ["music"; "live stream"; "shorts"; "compilation"; "trailer"; "announcement"].

Definition hasNonFoodKeyword (lowerTitle : string) : bool :=
  existsb (fun keyword => includes lowerTitle keyword) nonFoodKeywords.

Definition isVideoSuitableForProcessing (video : videoData) : bool :=
  let durationSeconds := parseDuration (duration video) in
  let title := toLowerCase (title video) in
  if durationSeconds <=? 60 then false
  else if durationSeconds <? 120 then false
  else if hasNonFoodKeyword title then false
  else true.

(** *** Transcript acquisition *)

(** An element of the fallback provider's transcript array: a string, an
    object (with its [text], if it has a string there), or [null]. *)
Inductive rapidEntry : Type :=
| EntryString (s : string)
| EntryObject (text : option string)
| EntryNull.

(** [response.data.transcript]: missing (also when [response.data] is),
    a string, an array, or some other truthy value. *)
Inductive rapidTranscript : Type :=
| TranscriptMissing
| TranscriptString (s : string)
| TranscriptArray (entries : list rapidEntry)
| TranscriptOther.

(** Outcome of the request to the fallback provider: an answer, an HTTP
    error (status as printed, and [error.response.data?.message]), or a
    failure without any answer. *)
Inductive rapidOutcome : Type :=
| Response (transcript : rapidTranscript)
| HttpError (status : string) (message : option string)
| RequestFailed (message : string).

(** [entry.text || entry], as [join] prints it. *)
Definition rapidEntryText (e : rapidEntry) : result string :=
  match e with
  | EntryString s => Ok s
  | EntryObject (Some t) => Ok (if String.eqb t "" then "[object Object]" else t)
  | EntryObject None => Ok "[object Object]"
  | EntryNull => Throw "Cannot read properties of null (reading 'text')"
  end.

Definition getRapidApiTranscript (outcome : rapidOutcome) : result string :=
  match outcome with
  | Response transcript =>
      try_catch
        (match transcript with
         | TranscriptArray entries =>
             bind (mapM rapidEntryText entries) (fun texts => Ok (join texts))
         | TranscriptString s =>
             if String.eqb s ""
             then Throw "No transcript data in RapidAPI response"
             else Ok s
         | TranscriptMissing | TranscriptOther =>
             Throw "No transcript data in RapidAPI response"
         end)
        (fun m => Throw ("RapidAPI request failed: " +:+ m))
  | HttpError status message =>
      Throw ("RapidAPI error: " +:+ status +:+ " - "
             +:+ match message with
                | Some m => if String.eqb m "" then "Unknown error" else m
                | None => "Unknown error"
                end)
  | RequestFailed m => Throw ("RapidAPI request failed: " +:+ m)
  end.

(** [transcriptArray.map(entry => entry.text).join(' ')]: [join] prints
    a missing text as the empty string. *)
Definition captionText (transcriptArray : list YoutubeTranscript.entry) : string :=
  join (map (fun e => match YoutubeTranscript.text e with
                      | Some t => t
                      | None => ""
                      end) transcriptArray).

(** [getVideoTranscript]: [fetched] is the outcome of
    [YoutubeTranscript.fetchTranscript(videoId)], [rapid] the outcome of
    the request to the fallback provider. *)
Definition getVideoTranscript (fetched : result (list YoutubeTranscript.entry))
           (rapid : rapidOutcome) : result string :=
  try_catch
    (bind fetched (fun transcriptArray =>
       let transcript := captionText transcriptArray in
       if 50 <? strlen (trim transcript) then Ok transcript
       else Throw "YouTube transcript too short"))
    (fun errorMessage =>
       try_catch (getRapidApiTranscript rapid)
         (fun rapidApiErrorMessage =>
            Throw ("Failed to fetch video transcript from both sources: YouTube ("
                   +:+ errorMessage +:+ ") and RapidAPI ("
                   +:+ rapidApiErrorMessage +:+ ")"))).

(** *** [extractVideoId] *)

(** The rest of [s] after the prefix [p], if [s] starts with [p]. *)
Fixpoint stripPrefix (p s : string) : option string :=
  match p, s with
  | EmptyString, _ => Some s
  | String a p', String b s' => if Ascii.eqb a b then stripPrefix p' s' else None
  | String _ _, EmptyString => None
  end.

(** The class [[^&\n?#]]. *)
Definition isIdChar (c : ascii) : bool :=
  negb (Ascii.eqb c "&" || (nat_of_ascii c =? 10)%nat
        || Ascii.eqb c "?" || Ascii.eqb c "#").

Fixpoint takeId (s : string) : string :=
  match s with
  | EmptyString => EmptyString
  | String c r => if isIdChar c then String c (takeId r) else EmptyString
  end.

(** The pattern tried at the head of [s]. *)
Definition videoIdAt (s : string) : option string :=
  let capture p :=
    match stripPrefix p s with
    | Some r => match takeId r with
                | EmptyString => None
                | i => Some i
                end
    | None => None
    end in
  match capture "youtube.com/watch?v=" with
  | Some i => Some i
  | None =>
      match capture "youtu.be/" with
      | Some i => Some i
      | None => capture "youtube.com/embed/"
      end
  end.

Fixpoint extractVideoId (url : string) : option string :=
  match videoIdAt url with
  | Some i => Some i
  | None =>
      match url with
      | EmptyString => None
      | String _ r => extractVideoId r
      end
  end.

(** *** [extractChannelId] and the request of [getChannelInfo] *)

(** The class [[^\/\?\&]]. *)
Definition isChannelChar (c : ascii) : bool :=
  negb (Ascii.eqb c "/" || Ascii.eqb c "?" || Ascii.eqb c "&").

Fixpoint takeChannelChars (s : string) : string :=
  match s with
  | EmptyString => EmptyString
  | String c r => if isChannelChar c then String c (takeChannelChars r) else EmptyString
  end.

(** A pattern [marker([^\/\?\&]+)] tried at the head of [s]. *)
Definition channelAt (marker s : string) : option string :=
  match stripPrefix marker s with
  | Some r => match takeChannelChars r with
              | EmptyString => None
              | i => Some i
              end
  | None => None
  end.

(** [url.match(pattern)]: the leftmost place where the pattern matches. *)
Fixpoint channelMatch (marker url : string) : option string :=
  match channelAt marker url with
  | Some i => Some i
  | None =>
      match url with
      | EmptyString => None
      | String _ r => channelMatch marker r
      end
  end.

(** The patterns are tried in their order, each on the whole address; a
    match of the last one, the handle format, gets its [@] back. *)
Definition extractChannelId (url : string) : option string :=
  match channelMatch "youtube.com/channel/" url with
  | Some i => Some i
  | None =>
      match channelMatch "youtube.com/c/" url with
      | Some i => Some i
      | None =>
          match channelMatch "youtube.com/user/" url with
          | Some i => Some i
          | None =>
              match channelMatch "youtube.com/@" url with
              | Some i => Some ("@" +:+ i)
              | None => None
              end
          end
      end
  end.

(** The [id] and [forUsername] of the request [getChannelInfo] sends;
    [None] is [undefined]. *)
Definition channelListParams (channelId : string) : option string * option string :=
  (if startsWith channelId "@" then None else Some channelId,
   if startsWith channelId "@" then Some (slice1 channelId) else None).

(** *** [getChannelVideos] *)

(** An item of the detailed listing and the object built from it, with
    the fields the selection reads or computes; the thumbnail, the date
    and the counters are carried along unread and are left out. *)
Record apiVideo : Type := {
  api_id : string;
  api_title : string;
  api_description : string;
  api_duration : option string
}.

Record channelVideo : Type := {
  cv_videoId : string;
  cv_title : string;
  cv_description : string;
  cv_duration : option string;
  cv_durationSeconds : Z
}.

Definition toChannelVideo (video : apiVideo) : channelVideo :=
  {| cv_videoId := api_id video;
     cv_title := api_title video;
     cv_description := api_description video;
     cv_duration := api_duration video;
     cv_durationSeconds := parseDuration (api_duration video) |}.

Definition suitableChannelVideo (videoData : channelVideo) : bool :=
  isVideoSuitableForProcessing
    {| duration := cv_duration videoData; title := cv_title videoData |}.

(** The loop over the detailed items: a suitable video is pushed, and
    the loop stops once [videos] has [maxResults] elements. *)
Fixpoint selectSuitable (maxResults : nat) (items : list apiVideo)
         (videos : list channelVideo) : list channelVideo :=
  match items with
  | [] => videos
  | video :: rest =>
      let videoData := toChannelVideo video in
      if suitableChannelVideo videoData then
        let videos := videos ++ [videoData] in
        if (maxResults <=? length videos)%nat then videos
        else selectSuitable maxResults rest videos
      else selectSuitable maxResults rest videos
  end.

(** [getChannelVideos]: [searched] is the outcome of the search (the
    items found, [None] when the answer has no [items]) and [detailed]
    the outcome of the detailed listing. *)
Definition getChannelVideos (searched : result (option (list string)))
           (detailed : result (list apiVideo)) (maxResults : nat)
  : result (list channelVideo) :=
  try_catch
    (bind searched (fun items =>
       match items with
       | Some (_ :: _) =>
           bind detailed (fun details => Ok (selectSuitable maxResults details []))
       | _ => Ok []
       end))
    (fun m => Throw ("Failed to fetch channel videos: " +:+ m)).

End YouTubeService.

(** ** services/aiService.js *)

Module AIService.

(** An element of the [restaurants] array with the properties the
    validation reads. *)
Record rawRestaurant : Type := {
  raw_name : jsval;
  raw_location : jsval;
  raw_address : jsval;
  raw_cuisineType : jsval;
  raw_dishMentioned : jsval;
  raw_context : jsval;
  raw_confidenceScore : jsval;
  raw_priceRange : jsval;
  raw_mentionedAt : jsval
}.

(** An array element is [null], an object, or another value (a number, a
    string, a boolean, an array), all of whose properties read as
    [undefined]. *)
Inductive rawItem : Type :=
| ItemNull
| ItemOther
| ItemObj (r : rawRestaurant).

(** The parsed response: [NoRestaurantsArray] when the response is falsy
    or its [restaurants] property is falsy or not an array. *)
Inductive parsedResponse : Type :=
| NoRestaurantsArray
| RestaurantsArray (items : list rawItem).

(** A validated recommendation candidate. *)
Record candidate : Type := {
  name : string;
  location : jsval;
  address : jsval;
  cuisineType : jsval;
  dishMentioned : jsval;
  context : jsval;
  confidenceScore : jsval;
  priceRange : jsval;
  mentionedAt : jsval
}.

Definition validRanges : list string := ["$"; "$$"; "$$$"; "$$$$"].

Definition validatePriceRange (priceRange : jsval) : jsval :=
  match priceRange with
  | JStr s => if existsb (String.eqb s) validRanges then JStr s else JNull
  | _ => JNull
  end.

Section Validation.

Variable StringToNumber : string -> option Q.

(** [restaurant.confidenceScore >= 0.6 || !restaurant.confidenceScore] *)
Definition reasonableConfidence (cs : jsval) : bool :=
  ge StringToNumber cs (6 # 10) || negb (truthy cs).

(** The callback of [filter]. *)
Definition keepRestaurant (item : rawItem) : result bool :=
  match item with
  | ItemNull => Throw "Cannot read properties of null (reading 'name')"
  | ItemOther => Ok false
  | ItemObj r =>
      if truthy (raw_name r) then
        match raw_name r with
        | JStr s =>
            Ok ((0 <? strlen (trim s))
                && reasonableConfidence (raw_confidenceScore r))
        | _ => Throw "restaurant.name.trim is not a function"
        end
      else Ok false
  end.

Fixpoint filterM {A} (f : A -> result bool) (l : list A) : result (list A) :=
  match l with
  | [] => Ok []
  | x :: xs =>
      match f x with
      | Throw m => Throw m
      | Ok b =>
          match filterM f xs with
          | Throw m => Throw m
          | Ok ys => Ok (if b then x :: ys else ys)
          end
      end
  end.

(** The callback of [map]; it only sees elements that passed the
    filter. *)
Definition formatRestaurant (item : rawItem) : result candidate :=
  match item with
  | ItemObj r =>
      match raw_name r with
      | JStr s =>
          Ok {| name := trim s;
                location := or_else (raw_location r) JNull;
                address := or_else (raw_address r) JNull;
                cuisineType := or_else (raw_cuisineType r) JNull;
                dishMentioned := or_else (raw_dishMentioned r) JNull;
                context := or_else (raw_context r) JNull;
                confidenceScore := or_else (raw_confidenceScore r) (JNum (8 # 10));
                priceRange := validatePriceRange (raw_priceRange r);
                mentionedAt := or_else (raw_mentionedAt r) JNull |}
      | _ => Throw "restaurant.name.trim is not a function"
      end
  | ItemNull => Throw "Cannot read properties of null (reading 'name')"
  | ItemOther => Throw "Cannot read properties of undefined (reading 'trim')"
  end.

Definition validateAndFormatRecommendations (recommendations : parsedResponse)
  : result (list candidate) :=
  match recommendations with
  | NoRestaurantsArray => Ok []
  | RestaurantsArray items =>
      bind (filterM keepRestaurant items) (mapM formatRestaurant)
  end.

(** [extractRestaurantRecommendations]: [completion] is the outcome of
    the request to the model and of parsing its answer (lines 18-54);
    whatever is thrown on the way is wrapped in a new error. *)
Definition extractRestaurantRecommendations (completion : result parsedResponse)
  : result (list candidate) :=
  try_catch (bind completion validateAndFormatRecommendations)
            (fun m => Throw ("Failed to extract recommendations: " +:+ m)).

End Validation.

(** [classifyVideoContent]: keywords looked for in the lowercased title
    and description, in this order. *)
Definition classifyVideoContent (title description : string) : string :=
  let text := toLowerCase (title +:+ " " +:+ description) in
  if includes text "review" || includes text "trying" || includes text "taste test"
  then "review"
  else if includes text "tour" || includes text "guide" || includes text "best"
  then "guide"
  else if includes text "recipe" || includes text "cooking" || includes text "make"
  then "recipe"
  else if includes text "challenge" || includes text "vs" || includes text "competition"
  then "challenge"
  else "general".

End AIService.

(** ** services/timestampService.js *)

Module TimestampService.

Import AIService YoutubeTranscript.

(** An element of [timestampedText]. *)
Record stamped : Type := {
  st_text : string;
  st_timestamp : Z;
  st_offset : Z
}.

(** The callback of the first [map]: [entry.text.toLowerCase()] throws
    when there is no text; [Math.floor(entry.offset / 1000)]. *)
Definition stamp (e : entry) : result stamped :=
  match text e with
  | Some t =>
      Ok {| st_text := toLowerCase t;
            st_timestamp := offset e / 1000;
            st_offset := offset e |}
  | None => Throw "Cannot read properties of undefined (reading 'toLowerCase')"
  end.

(** [(context || '').toLowerCase()] *)
Definition contextLower (context : jsval) : result string :=
  match or_else context (JStr "") with
  | JStr s => Ok (toLowerCase s)
  | _ => Throw "(context || '').toLowerCase is not a function"
  end.

Definition searchTerms (restaurantName : string) (lowerContext : string) : list string :=
  List.filter (fun term => 2 <? strlen term)
    ([toLowerCase restaurantName]
       ++ split " " (toLowerCase restaurantName)
       ++ List.filter (fun word => 3 <? strlen word) (split " " lowerContext)).

(** [timestampedText.slice(Math.max(0, i - 2), Math.min(length, i + 3))] *)
Definition contextWindow (timestampedText : list stamped) (i : nat) : list stamped :=
  let from := Nat.max 0 (i - 2) in
  let to := Nat.min (length timestampedText) (i + 3) in
  firstn (to - from) (skipn from timestampedText).

Definition windowText (timestampedText : list stamped) (i : nat) : string :=
  join (map st_text (contextWindow timestampedText i)).

(** The body of [searchTerms.forEach], as a step on [score]. *)
Definition scoreStep (restaurantName windowText : string) (score : Z) (term : string) : Z :=
  if includes windowText term then
    let score := score + 1 in
    if String.eqb term (toLowerCase restaurantName) then score + 2 else score
  else score.

(** The body of the [for] loop, as a step on [(bestMatch, bestScore)]. *)
Definition scanStep (timestampedText : list stamped) (restaurantName : string)
           (terms : list string) (best : option Z * Z) (i : nat) : option Z * Z :=
  match nth_error timestampedText i with
  | None => best
  | Some e =>
      let score :=
        fold_left (scoreStep restaurantName (windowText timestampedText i)) terms 0 in
      if snd best <? score then (Some (st_timestamp e), score) else best
  end.

Definition findRestaurantTimestamp (transcriptArray : list entry)
           (restaurantName : string) (context : jsval) : result (option Z) :=
  match transcriptArray with
  | [] => Ok None
  | _ =>
      bind (mapM stamp transcriptArray) (fun timestampedText =>
      bind (contextLower context) (fun lowerContext =>
      let terms := searchTerms restaurantName lowerContext in
      let '(bestMatch, bestScore) :=
        fold_left (scanStep timestampedText restaurantName terms)
                  (seq 0 (length timestampedText)) (None, 0) in
      Ok (if 2 <=? bestScore then bestMatch else None)))
  end.

(** [getTranscriptWithTimestamps]: [fetched] is the outcome of
    [YoutubeTranscript.fetchTranscript(videoId)]. *)
Definition getTranscriptWithTimestamps (fetched : result (list entry)) : list entry :=
  match fetched with
  | Ok transcriptArray => transcriptArray
  | Throw _ => []
  end.

Definition timestampValue (timestamp : option Z) : jsval :=
  match timestamp with
  | Some t => JNum (inject_Z t)
  | None => JNull
  end.

(** The callback of [aiRecommendations.map]: [{...rec, mentionedAt:
    timestamp}]. *)
Definition enhanceOne (transcriptArray : list entry) (rec : candidate) : result candidate :=
  bind (findRestaurantTimestamp transcriptArray (name rec) (context rec))
       (fun timestamp =>
          Ok {| name := name rec;
                location := location rec;
                address := address rec;
                cuisineType := cuisineType rec;
                dishMentioned := dishMentioned rec;
                context := context rec;
                confidenceScore := confidenceScore rec;
                priceRange := priceRange rec;
                mentionedAt := timestampValue timestamp |}).

Definition enhanceRecommendationsWithTimestamps (fetched : result (list entry))
           (aiRecommendations : list candidate) : result (list candidate) :=
  try_catch
    (let transcriptArray := getTranscriptWithTimestamps fetched in
     if (length transcriptArray =? 0)%nat then Ok aiRecommendations
     else mapM (enhanceOne transcriptArray) aiRecommendations)
    (fun _ => Ok aiRecommendations).

(** [formatTimestamp]: [seconds] is a whole number of seconds, [None]
    when it is [null]; [%] is the remainder of the truncated division. *)
Definition formatTimestamp (seconds : option Z) : option string :=
  match seconds with
  | None => None
  | Some secs =>
      if secs =? 0 then None
      else
        let minutes := secs / 60 in
        let remainingSeconds := Z.rem secs 60 in
        Some (numberToString minutes +:+ ":" +:+ padStart2 (numberToString remainingSeconds))
  end.

Definition getYouTubeUrlWithTimestamp (videoId : string) (timestamp : option Z) : string :=
  match timestamp with
  | None => "https://www.youtube.com/watch?v=" +:+ videoId
  | Some t =>
      if t =? 0 then "https://www.youtube.com/watch?v=" +:+ videoId
      else "https://www.youtube.com/watch?v=" +:+ videoId
           +:+ "&t=" +:+ numberToString t +:+ "s"
  end.

End TimestampService.

(** ** services/supabaseService.js and the tables of database/schema.sql *)

Module SupabaseService.

(** A row of [videos]; [video_id] is the key of the table
    ([UNIQUE NOT NULL]) and [id] the primary key other tables refer to. *)
Record video : Type := {
  id : nat;
  video_id : string;
  title : string;
  description : option string;
  duration : option string;
  transcript : option string;
  processed : bool;
  processing_error : option string;
  created_at : Z
}.

(** The object passed to [updateVideo]: a field is [None] when the
    object does not mention the column. *)
Record videoUpdates : Type := {
  set_transcript : option string;
  set_processed : option bool;
  set_processing_error : option (option string)
}.

Record restaurantData : Type := {
  rd_name : string;
  rd_address : jsval;
  rd_city : jsval;
  rd_cuisine_type : jsval;
  rd_price_range : jsval
}.

(** A row of [restaurants]. *)
Record restaurant : Type := {
  restaurant_id : nat;
  restaurant_data : restaurantData
}.

Record recommendationData : Type := {
  rec_video_id : nat;
  rec_restaurant_id : nat;
  rec_confidence_score : jsval;
  rec_context : jsval;
  rec_dish_mentioned : jsval;
  rec_mentioned_at_timestamp : jsval
}.

(** A row of [restaurant_recommendations]. *)
Record recommendation : Type := {
  recommendation_id : nat;
  recommendation_data : recommendationData
}.

(** The fields of [videoData] that [createVideo] stores. *)
Record newVideo : Type := {
  nv_videoId : string;
  nv_title : string;
  nv_description : option string;
  nv_duration : option string;
  nv_transcript : option string
}.

(** The stored state. *)
Record store : Type := {
  videos : gmap string video;
  restaurants : list restaurant;
  recommendations : list recommendation
}.

(** The requests sent to the database. *)
Inductive query : Type :=
| GetVideo (videoId : string)
| UpdateVideo (videoId : string) (updates : videoUpdates)
| CreateVideo (videoData : newVideo)
| GetUnprocessedVideos (limit : nat)
| SelectFailedVideos (limit : nat)
| FindRestaurantByName (name : string) (city : jsval)
| CreateRestaurant (data : restaurantData)
| CreateRecommendation (data : recommendationData).

(** What the database does beyond the tables: [rejects q] is the error
    it answers [q] with for a reason of its own (connection, column
    types and sizes, ...), [ilikeRestaurant name city r] is the [WHERE]
    clause of [findRestaurantByName] evaluated on a row, [now] the value
    of [NOW()], [fresh_id] the key generated for a new row. *)
Record database : Type := {
  rejects : query -> option string;
  ilikeRestaurant : string -> jsval -> restaurant -> bool;
  now : Z;
  fresh_id : store -> nat
}.

(** A call on the store: its outcome and the store it leaves. *)
Definition action (A : Type) : Type := store -> result A * store.

Definition ret {A} (a : A) : action A := fun s => (Ok a, s).

Definition throw {A} (m : string) : action A := fun s => (Throw m, s).

Definition abind {A B} (c : action A) (k : A -> action B) : action B :=
  fun s =>
    match c s with
    | (Ok a, s') => k a s'
    | (Throw m, s') => (Throw m, s')
    end.

(** [try { c } catch (e) { h e.message }]: what [c] wrote before it
    threw stays written. *)
Definition acatch {A} (c : action A) (h : string -> action A) : action A :=
  fun s =>
    match c s with
    | (Ok a, s') => (Ok a, s')
    | (Throw m, s') => h m s'
    end.

Definition lift {A} (r : result A) : action A := fun s => (r, s).

Definition applyUpdates (updates : videoUpdates) (v : video) : video :=
  {| id := id v;
     video_id := video_id v;
     title := title v;
     description := description v;
     duration := duration v;
     transcript := match set_transcript updates with
                   | Some t => Some t
                   | None => transcript v
                   end;
     processed := match set_processed updates with
                  | Some b => b
                  | None => processed v
                  end;
     processing_error := match set_processing_error updates with
                         | Some e => e
                         | None => processing_error v
                         end;
     created_at := created_at v |}.

Section Queries.

Variable db : database.

(** [getVideo]: no row is not an error (code PGRST116), [data] is
    [null] then. *)
Definition getVideo (videoId : string) : action (option video) :=
  fun s =>
    match rejects db (GetVideo videoId) with
    | Some m => (Throw ("Failed to get video: " +:+ m), s)
    | None => (Ok (videos s !! videoId), s)
    end.

(** [updateVideo]: [.single()] makes a request that matches no row an
    error. *)
Definition updateVideo (videoId : string) (updates : videoUpdates) : action video :=
  fun s =>
    match rejects db (UpdateVideo videoId updates) with
    | Some m => (Throw ("Failed to update video: " +:+ m), s)
    | None =>
        match videos s !! videoId with
        | None => (Throw "Failed to update video: no rows returned", s)
        | Some v =>
            let v' := applyUpdates updates v in
            (Ok v', {| videos := <[videoId := v']> (videos s);
                       restaurants := restaurants s;
                       recommendations := recommendations s |})
        end
    end.

(** [createVideo]: [video_id] is unique; [processed] and
    [processing_error] take their defaults. *)
Definition createVideo (videoData : newVideo) : action video :=
  fun s =>
    match rejects db (CreateVideo videoData) with
    | Some m => (Throw ("Failed to create video: " +:+ m), s)
    | None =>
        match videos s !! nv_videoId videoData with
        | Some _ => (Throw "Failed to create video: duplicate key value", s)
        | None =>
            let v := {| id := fresh_id db s;
                        video_id := nv_videoId videoData;
                        title := nv_title videoData;
                        description := nv_description videoData;
                        duration := nv_duration videoData;
                        transcript := nv_transcript videoData;
                        processed := false;
                        processing_error := None;
                        created_at := now db |} in
            (Ok v, {| videos := <[nv_videoId videoData := v]> (videos s);
                      restaurants := restaurants s;
                      recommendations := recommendations s |})
        end
    end.

(** The copy of [parseDuration] kept by this service. *)
Definition parseDuration (duration : option string) : Z :=
  YouTubeService.parseDuration duration.

(** The callback of the duration filter of [getUnprocessedVideos];
    [parseDuration] does not throw on a string. *)
Definition longEnough (v : video) : bool :=
  match duration v with
  | None => true
  | Some d =>
      if String.eqb d "" then true
      else 120 <? parseDuration (Some d)
  end.

Definition newerFirst (a b : video) : Prop := created_at b <= created_at a.

#[local] Instance newerFirst_dec (a b : video) : Decision (newerFirst a b) :=
  Z_le_dec (created_at b) (created_at a).

Definition allVideos (s : store) : list video :=
  map snd (map_to_list (videos s)).

Definition getUnprocessedVideos (limit : nat) : action (list video) :=
  fun s =>
    match rejects db (GetUnprocessedVideos limit) with
    | Some m => (Throw ("Failed to get unprocessed videos: " +:+ m), s)
    | None =>
        let data :=
          firstn limit
            (merge_sort newerFirst
               (List.filter
                  (fun v => negb (processed v)
                            && match processing_error v with
                               | None => true
                               | Some _ => false
                               end)
                  (allVideos s))) in
        (Ok (List.filter longEnough data), s)
    end.

Definition findRestaurantByName (name : string) (city : jsval) : action (list restaurant) :=
  fun s =>
    match rejects db (FindRestaurantByName name city) with
    | Some m => (Throw ("Failed to find restaurant: " +:+ m), s)
    | None =>
        (Ok (firstn 5 (List.filter (ilikeRestaurant db name city) (restaurants s))), s)
    end.

Definition createRestaurant (data : restaurantData) : action restaurant :=
  fun s =>
    match rejects db (CreateRestaurant data) with
    | Some m => (Throw ("Failed to create restaurant: " +:+ m), s)
    | None =>
        let r := {| restaurant_id := fresh_id db s; restaurant_data := data |} in
        (Ok r, {| videos := videos s;
                  restaurants := restaurants s ++ [r];
                  recommendations := recommendations s |})
    end.

(** [createRecommendation]: the pair [(video_id, restaurant_id)] is
    unique in the table. *)
Definition createRecommendation (data : recommendationData) : action recommendation :=
  fun s =>
    match rejects db (CreateRecommendation data) with
    | Some m => (Throw ("Failed to create recommendation: " +:+ m), s)
    | None =>
        if existsb (fun r => (rec_video_id (recommendation_data r) =? rec_video_id data)%nat
                             && (rec_restaurant_id (recommendation_data r)
                                 =? rec_restaurant_id data)%nat)
                   (recommendations s)
        then (Throw "Failed to create recommendation: duplicate key value", s)
        else
          let r := {| recommendation_id := fresh_id db s; recommendation_data := data |} in
          (Ok r, {| videos := videos s;
                    restaurants := restaurants s;
                    recommendations := recommendations s ++ [r] |})
    end.

End Queries.

End SupabaseService.

(** ** The processing router *)

Module Processing.

Import AIService SupabaseService.

(** What [getVideoDetails] returns, as far as the router uses it: the
    fields [createVideo] stores and the channel of the video. *)
Record videoDetails : Type := {
  details : newVideo;
  channelId : string
}.

(** The collaborators of the router: the database, the captioning
    library as [youtubeService] and as [timestampService] call it, the
    fallback transcript provider, the model endpoint together with the
    parsing of its answer, the video metadata provider, and the
    get-or-create steps of [/add-and-process] on the [influencers]
    table, which the store of the model leaves out. *)
Record services : Type := {
  db : database;
  fetchTranscript : string -> result (list YoutubeTranscript.entry);
  fetchTimedTranscript : string -> result (list YoutubeTranscript.entry);
  rapidApi : string -> YouTubeService.rapidOutcome;
  completion : string -> string -> result parsedResponse;
  StringToNumber : string -> option Q;
  getVideoDetails : string -> result videoDetails;
  getOrCreateInfluencer : string -> result nat
}.

Record processedRecommendation : Type := {
  pr_restaurant : restaurant;
  pr_recommendation : recommendation
}.

(** The value [processVideoRecommendations] returns. *)
Record processingResult : Type := {
  result_recommendations : list processedRecommendation;
  extracted_count : nat;
  processed_count : nat
}.

(** [!transcript || transcript.trim().length === 0] *)
Definition isBlank (transcript : string) : bool :=
  String.eqb transcript "" || (strlen (trim transcript) =? 0).

(** [video.description || ''] *)
Definition descriptionOrEmpty (v : video) : string :=
  match description v with
  | Some d => d
  | None => ""
  end.

Definition transcriptUpdate (t : string) : videoUpdates :=
  {| set_transcript := Some t; set_processed := None; set_processing_error := None |}.

(** [{ processed: true, processing_error: null }] *)
Definition markProcessed : videoUpdates :=
  {| set_transcript := None; set_processed := Some true;
     set_processing_error := Some None |}.

(** [{ processing_error: error.message, processed: false }] *)
Definition markFailed (message : string) : videoUpdates :=
  {| set_transcript := None; set_processed := Some false;
     set_processing_error := Some (Some message) |}.

(** [{ processing_error: null }] *)
Definition clearError : videoUpdates :=
  {| set_transcript := None; set_processed := None;
     set_processing_error := Some None |}.

(** [{ processing_error: error.message }] *)
Definition recordError (message : string) : videoUpdates :=
  {| set_transcript := None; set_processed := None;
     set_processing_error := Some (Some message) |}.

Section Router.

Variable svc : services.

(** Lines 275-287: the transcript the video has, or the one fetched
    and stored now, or the description when fetching or storing
    throws. *)
Definition acquireTranscript (v : video) : action string :=
  let fetchAndStore : action string :=
    acatch
      (abind (lift (YouTubeService.getVideoTranscript
                      (fetchTranscript svc (video_id v))
                      (rapidApi svc (video_id v))))
             (fun t =>
                abind (updateVideo (db svc) (video_id v) (transcriptUpdate t))
                      (fun _ => ret t)))
      (fun _ => ret (descriptionOrEmpty v)) in
  match transcript v with
  | Some t => if String.eqb t "" then fetchAndStore else ret t
  | None => fetchAndStore
  end.

(** The body of the [try] of the persistence loop (lines 309-342). *)
Definition persistCandidate (v : video) (rec : candidate)
  : action processedRecommendation :=
  abind (findRestaurantByName (db svc) (name rec) (location rec)) (fun found =>
  abind (match found with
         | first :: _ => ret first
         | [] =>
             createRestaurant (db svc)
               {| rd_name := name rec;
                  rd_address := address rec;
                  rd_city := location rec;
                  rd_cuisine_type := cuisineType rec;
                  rd_price_range := priceRange rec |}
         end) (fun r =>
  abind (createRecommendation (db svc)
           {| rec_video_id := id v;
              rec_restaurant_id := restaurant_id r;
              rec_confidence_score := confidenceScore rec;
              rec_context := context rec;
              rec_dish_mentioned := dishMentioned rec;
              rec_mentioned_at_timestamp := mentionedAt rec |}) (fun record =>
  ret {| pr_restaurant := r; pr_recommendation := record |}))).

(** One turn of the loop: [try { ... push } catch { }]. *)
Definition persistTurn (v : video) (done : list processedRecommendation)
           (rec : candidate) : action (list processedRecommendation) :=
  acatch (abind (persistCandidate v rec) (fun p => ret (done ++ [p])))
         (fun _ => ret done).

(** The loop of lines 307-347. *)
Fixpoint persistAll (v : video) (recs : list candidate)
         (done : list processedRecommendation)
  : action (list processedRecommendation) :=
  match recs with
  | [] => ret done
  | rec :: rest => abind (persistTurn v done rec) (persistAll v rest)
  end.

(** Lines 305-359: the loop, the final write and the value returned. *)
Definition persistAndMark (v : video) (recs : list candidate) : action processingResult :=
  abind (persistAll v recs []) (fun done =>
  abind (updateVideo (db svc) (video_id v) markProcessed) (fun _ =>
  ret {| result_recommendations := done;
         extracted_count := length recs;
         processed_count := length done |})).

Definition processVideoRecommendations (v : video) : action processingResult :=
  abind (acquireTranscript v) (fun t =>
  let t := if isBlank t then descriptionOrEmpty v else t in
  if isBlank t
  then throw "No transcript or description available for processing"
  else
    abind (lift (extractRestaurantRecommendations (StringToNumber svc)
                   (completion svc t (title v)))) (fun recs =>
    abind (lift (TimestampService.enhanceRecommendationsWithTimestamps
                   (fetchTimedTranscript svc (video_id v)) recs)) (fun recs =>
    persistAndMark v recs))).

(** *** The routes *)

Record videoSummary : Type := {
  vs_videoId : string;
  vs_title : string;
  vs_recommendations : nat
}.

Record videoFailure : Type := {
  vf_videoId : string;
  vf_title : string;
  vf_error : string
}.

Record batchResults : Type := {
  batch_processed : nat;
  batch_failed : nat;
  batch_errors : list videoFailure;
  videos_processed : list videoSummary
}.

Record reprocessResults : Type := {
  reprocessed : nat;
  reprocess_failed : nat;
  reprocess_errors : list (string * string)
}.

Inductive responseBody : Type :=
| ErrorBody (error : string)
| ProcessedBody (videoId : string) (r : processingResult)
| NoUnprocessedBody
| BatchBody (total : nat) (r : batchResults)
| NoFailedBody
| ReprocessBody (total : nat) (r : reprocessResults)
| ExistsBody (v : video)
| AddedBody (v : video) (influencer : nat) (r : processingResult).

Record response : Type := {
  status : nat;
  body : responseBody
}.

Definition json (code : nat) (b : responseBody) : action response :=
  ret {| status := code; body := b |}.

(** A handler: the answer sent and the store left behind. *)
Definition handler : Type := store -> response * store.

(** [POST /video/:videoId] *)
Definition processVideoRoute (videoId : string) : handler :=
  fun s =>
    match abind (getVideo (db svc) videoId)
            (fun found =>
               match found with
               | None => json 404 (ErrorBody "Video not found")
               | Some v =>
                   if processed v
                   then json 400 (ErrorBody "Video already processed")
                   else abind (processVideoRecommendations v)
                              (fun r => json 200 (ProcessedBody videoId r))
               end) s with
    | (Ok res, s') => (res, s')
    | (Throw message, s') =>
        (** mark the video as failed; an error of this write is
            only logged *)
        let '(_, s'') := updateVideo (db svc) videoId (markFailed message) s' in
        ({| status := 500; body := ErrorBody message |}, s'')
    end.

(** [video.title?.substring(0, 50) + '...'] *)
Definition shortTitle (v : video) : string :=
  String.substring 0 50 (title v) +:+ "...".

(** One turn of the loop of [POST /videos/batch]; the write in its
    [catch] is not guarded. *)
Definition batchTurn (results : batchResults) (v : video) : action batchResults :=
  acatch
    (abind (processVideoRecommendations v) (fun r =>
       ret {| batch_processed := S (batch_processed results);
              batch_failed := batch_failed results;
              batch_errors := batch_errors results;
              videos_processed :=
                videos_processed results
                ++ [{| vs_videoId := video_id v;
                       vs_title := shortTitle v;
                       vs_recommendations := length (result_recommendations r) |}] |}))
    (fun message =>
       abind (updateVideo (db svc) (video_id v) (markFailed message)) (fun _ =>
       ret {| batch_processed := batch_processed results;
              batch_failed := S (batch_failed results);
              batch_errors :=
                batch_errors results
                ++ [{| vf_videoId := video_id v;
                       vf_title := shortTitle v;
                       vf_error := message |}];
              videos_processed := videos_processed results |})).

Fixpoint batchLoop (vs : list video) (results : batchResults) : action batchResults :=
  match vs with
  | [] => ret results
  | v :: rest => abind (batchTurn results v) (batchLoop rest)
  end.

Definition finish (c : action response) : handler :=
  fun s =>
    match c s with
    | (Ok res, s') => (res, s')
    | (Throw message, s') => ({| status := 500; body := ErrorBody message |}, s')
    end.

(** [POST /videos/batch] with [limit] read from the request. *)
Definition batchRoute (limit : nat) : handler :=
  finish
    (abind (getUnprocessedVideos (db svc) limit) (fun unprocessedVideos =>
       match unprocessedVideos with
       | [] => json 200 NoUnprocessedBody
       | _ =>
           abind (batchLoop unprocessedVideos
                    {| batch_processed := 0; batch_failed := 0;
                       batch_errors := []; videos_processed := [] |})
                 (fun results =>
                    json 200 (BatchBody (length unprocessedVideos) results))
       end)).

(** The query of [POST /reprocess-failed]: failed videos, at most
    [limit], in the order the database lists them. *)
Definition selectFailedVideos (limit : nat) (s : store) : list video :=
  firstn limit
    (List.filter (fun v => negb (processed v)
                           && match processing_error v with
                              | Some _ => true
                              | None => false
                              end)
                 (allVideos s)).

(** One turn of the loop of [POST /reprocess-failed]. *)
Definition reprocessTurn (results : reprocessResults) (v : video)
  : action reprocessResults :=
  acatch
    (abind (updateVideo (db svc) (video_id v) clearError) (fun _ =>
     abind (processVideoRecommendations v) (fun _ =>
     ret {| reprocessed := S (reprocessed results);
            reprocess_failed := reprocess_failed results;
            reprocess_errors := reprocess_errors results |})))
    (fun message =>
       abind (updateVideo (db svc) (video_id v) (recordError message)) (fun _ =>
       ret {| reprocessed := reprocessed results;
              reprocess_failed := S (reprocess_failed results);
              reprocess_errors :=
                reprocess_errors results ++ [(video_id v, message)] |})).

Fixpoint reprocessLoop (vs : list video) (results : reprocessResults)
  : action reprocessResults :=
  match vs with
  | [] => ret results
  | v :: rest => abind (reprocessTurn results v) (reprocessLoop rest)
  end.

(** [POST /reprocess-failed] *)
Definition reprocessFailedRoute (limit : nat) : handler :=
  fun s =>
    match rejects (db svc) (SelectFailedVideos limit) with
    | Some message => ({| status := 500; body := ErrorBody message |}, s)
    | None =>
        match selectFailedVideos limit s with
        | [] => ({| status := 200; body := NoFailedBody |}, s)
        | failedVideos =>
            finish
              (abind (reprocessLoop failedVideos
                        {| reprocessed := 0; reprocess_failed := 0;
                           reprocess_errors := [] |})
                     (fun results =>
                        json 200 (ReprocessBody (length failedVideos) results))) s
        end
    end.

(** [POST /add-and-process]; [videoUrl] is [None] when the request has
    none. *)
Definition addAndProcessRoute (videoUrl : option string) : handler :=
  match videoUrl with
  | None => fun s => ({| status := 400; body := ErrorBody "Video URL is required" |}, s)
  | Some url =>
      if String.eqb url ""
      then fun s => ({| status := 400; body := ErrorBody "Video URL is required" |}, s)
      else
      match YouTubeService.extractVideoId url with
      | None =>
          fun s => ({| status := 400; body := ErrorBody "Invalid YouTube video URL" |}, s)
      | Some videoId =>
          finish
            (abind (getVideo (db svc) videoId) (fun existing =>
               match existing with
               | Some v => json 409 (ExistsBody v)
               | None =>
                   abind (lift (getVideoDetails svc videoId)) (fun d =>
                   abind (lift (getOrCreateInfluencer svc (channelId d))) (fun influencer =>
                   abind (createVideo (db svc) (details d)) (fun v =>
                   abind (processVideoRecommendations v) (fun r =>
                   json 201 (AddedBody v influencer r)))))
               end))
      end
  end.

End Router.

(** *** [GET /status] *)

Record statusBody : Type := {
  status_total : nat;
  status_processed : nat;
  status_failed : nat;
  status_pending : nat
}.

Inductive statusAnswer : Type :=
| StatusError (error : string)
| StatusOk (b : statusBody).

(** The rows the first query of the route selects: those whose
    [processing_error] is not null. *)
Definition withError (s : store) : list video :=
  List.filter (fun v => match processing_error v with
                        | Some _ => true
                        | None => false
                        end)
              (allVideos s).

(** [v.processing_error] read as a condition: a string that is not
    empty. *)
Definition hasErrorText (v : video) : bool :=
  match processing_error v with
  | Some e => negb (String.eqb e "")
  | None => false
  end.

(** [GET /status]; [statsError] and [countError] are the errors the
    database answers the two queries with, if it does.  The route writes
    nothing; its [processing_rate] is computed from [processed] and
    [total] and is not kept here. *)
Definition statusRoute (statsError countError : option string) (s : store) : statusAnswer :=
  match statsError with
  | Some message => StatusError message
  | None =>
      let stats := withError s in
      let processed := length (List.filter (fun v => processed v) stats) in
      let failed :=
        length (List.filter (fun v => negb (SupabaseService.processed v) && hasErrorText v)
                            stats) in
      let pending :=
        length (List.filter (fun v => negb (SupabaseService.processed v)
                                      && negb (hasErrorText v)) stats) in
      match countError with
      | Some message => StatusError message
      | None =>
          StatusOk {| status_total := length (allVideos s);
                      status_processed := processed;
                      status_failed := failed;
                      status_pending := pending |}
      end
  end.

End Processing.

(** ** Notions used to state the properties *)

Module Notions.

Import YoutubeTranscript AIService TimestampService SupabaseService.

(** The title carries none of the denylisted words. *)
Definition cleanTitle (title : string) : Prop :=
  forall keyword, In keyword YouTubeService.nonFoodKeywords ->
                  includes (toLowerCase title) keyword = false.

(** The primary captioning source gave nothing usable: it failed, or
    its text has at most 50 characters once trimmed. *)
Definition primaryUnusable (fetched : result (list entry)) : Prop :=
  match fetched with
  | Throw _ => True
  | Ok transcriptArray => strlen (trim (YouTubeService.captionText transcriptArray)) <= 50
  end.

(** What one search term is worth: an occurrence counts 1, and 2 more
    when the term is the whole lowercased name. *)
Definition termWeight (restaurantName term : string) : Z :=
  if String.eqb term (toLowerCase restaurantName) then 3 else 1.

(** The score of position [i]: the weights of the terms found in its
    window, each entry of the list counted. *)
Definition windowScore (timestampedText : list stamped) (restaurantName : string)
           (terms : list string) (i : nat) : Z :=
  fold_right Z.add 0
    (map (termWeight restaurantName)
         (List.filter (includes (windowText timestampedText i)) terms)).

(** The lowercased texts and whole seconds of a transcript all of whose
    entries have a text. *)
Definition stampAll (transcriptArray : list entry) : list stamped :=
  map (fun e => {| st_text := toLowerCase (match text e with
                                           | Some t => t
                                           | None => ""
                                           end);
                   st_timestamp := offset e / 1000;
                   st_offset := offset e |}) transcriptArray.

Definition wellFormed (transcriptArray : list entry) : Prop :=
  Forall (fun e => text e <> None) transcriptArray.

(** The context of a candidate is a string or is falsy. *)
Definition textualContext (context : jsval) : Prop :=
  exists lowerContext, contextLower context = Ok lowerContext.

(** The pieces of [s] between runs of white space. *)
Fixpoint tokens (s : string) : list string :=
  match s with
  | EmptyString => []
  | String c r =>
      if isWhiteSpace c then tokens r
      else match r with
           | EmptyString => [String c ""]
           | String c' _ =>
               if isWhiteSpace c' then String c "" :: tokens r
               else match tokens r with
                    | h :: t => String c h :: t
                    | [] => [String c ""]
                    end
           end
  end.

(** The search terms and their weights as the specification words them:
    the whole name at weight 2, each white-space separated token of the
    name and each context word longer than 3 characters at weight 1. *)
Definition claimedTerms (restaurantName : string) (context : string)
  : list (string * Z) :=
  [(toLowerCase restaurantName, 2)]
    ++ map (fun t => (t, 1)) (tokens (toLowerCase restaurantName))
    ++ map (fun t => (t, 1))
           (List.filter (fun w => 3 <? strlen w) (tokens (toLowerCase context))).

(** The score of position [i] as the specification words it. *)
Definition claimedScore (timestampedText : list stamped) (restaurantName context : string)
           (i : nat) : Z :=
  fold_right Z.add 0
    (map snd (List.filter (fun tw => includes (windowText timestampedText i) (fst tw))
                          (claimedTerms restaurantName context))).

(** What the specification says of the value returned for a transcript
    whose entries all have a text: the whole seconds of a position whose
    claimed score is the highest, when that score is at least 2, and
    nothing otherwise. *)
Definition claimedResult (transcriptArray : list entry) (restaurantName context : string)
           (r : option Z) : Prop :=
  let timestampedText := stampAll transcriptArray in
  let score := claimedScore timestampedText restaurantName context in
  match r with
  | Some t =>
      exists k e,
        nth_error timestampedText k = Some e
        /\ t = st_timestamp e
        /\ 2 <= score k
        /\ forall j, (j < length timestampedText)%nat -> score j <= score k
  | None => forall j, (j < length timestampedText)%nat -> score j < 2
  end.

(** The state of the scan after the positions below [k]. *)
Definition scanned (ts : list stamped) (score : nat -> Z) (k : nat)
           (best : option Z * Z) : Prop :=
  (forall j, (j < k)%nat -> score j <= snd best)
  /\ match fst best with
     | None => snd best = 0
     | Some t =>
         exists i e, (i < k)%nat /\ nth_error ts i = Some e /\ t = st_timestamp e
                     /\ snd best = score i /\ 0 < score i
                     /\ forall j, (j < i)%nat -> score j < score i
     end.

(** What the code returns for a transcript whose entries all have a
    text, given the lowercased context: the whole seconds of the first
    position whose score is the highest, when that score is at least 2,
    and nothing otherwise. *)
Definition scoredResult (transcriptArray : list entry) (restaurantName lowerContext : string)
           (r : option Z) : Prop :=
  let timestampedText := stampAll transcriptArray in
  let score :=
    windowScore timestampedText restaurantName (searchTerms restaurantName lowerContext) in
  match r with
  | Some t =>
      exists k e,
        nth_error transcriptArray k = Some e
        /\ t = offset e / 1000
        /\ 2 <= score k
        /\ (forall j, (j < length transcriptArray)%nat -> score j <= score k)
        /\ (forall j, (j < k)%nat -> score j < score k)
  | None => forall j, (j < length transcriptArray)%nat -> score j < 2
  end.

(** The fallback provider gives [t]: its transcript is the non-empty
    string [t], or an array whose printed entries joined by spaces are
    [t]. *)
Definition fallbackGives (rapid : YouTubeService.rapidOutcome) (t : string) : Prop :=
  (rapid = YouTubeService.Response (YouTubeService.TranscriptString t) /\ t <> "")
  \/ (exists entries texts,
        rapid = YouTubeService.Response (YouTubeService.TranscriptArray entries)
        /\ mapM YouTubeService.rapidEntryText entries = Ok texts
        /\ t = join texts).

(** The candidate with its [mentionedAt] replaced by the match found
    in the transcript. *)
Definition reconciled (transcriptArray : list entry) (rec : candidate) : candidate :=
  match findRestaurantTimestamp transcriptArray (name rec) (context rec) with
  | Ok timestamp =>
      {| name := name rec; location := location rec; address := address rec;
         cuisineType := cuisineType rec; dishMentioned := dishMentioned rec;
         context := context rec; confidenceScore := confidenceScore rec;
         priceRange := priceRange rec; mentionedAt := timestampValue timestamp |}
  | Throw _ => rec
  end.

(** [rec'] is [rec] with no field changed but [mentionedAt]. *)
Definition sameButMentionedAt (rec rec' : candidate) : Prop :=
  name rec' = name rec /\ location rec' = location rec
  /\ address rec' = address rec /\ cuisineType rec' = cuisineType rec
  /\ dishMentioned rec' = dishMentioned rec /\ context rec' = context rec
  /\ confidenceScore rec' = confidenceScore rec /\ priceRange rec' = priceRange rec.

(** [rec'] carries the match of [rec] in the transcript: the value
    [findRestaurantTimestamp] returns, which is [null] when no position
    scores 2. *)
Definition carriesMatch (transcriptArray : list entry) (rec rec' : candidate) : Prop :=
  exists lowerContext r,
    contextLower (context rec) = Ok lowerContext
    /\ findRestaurantTimestamp transcriptArray (name rec) (context rec) = Ok r
    /\ scoredResult transcriptArray (name rec) lowerContext r
    /\ mentionedAt rec' = timestampValue r
    /\ ((forall j, (j < length transcriptArray)%nat ->
                   windowScore (stampAll transcriptArray) (name rec)
                               (searchTerms (name rec) lowerContext) j < 2) ->
        mentionedAt rec' = JNull).

(** The two processing flags of a row, and those stored under a key. *)
Definition flags (v : video) : bool * option string :=
  (processed v, processing_error v).

Definition flagsAt (s : store) (videoId : string) : option (bool * option string) :=
  flags <$> videos s !! videoId.

(** The [videos] table is keyed by the [video_id] of its rows. *)
Definition keyed (s : store) : Prop :=
  forall videoId v, videos s !! videoId = Some v -> video_id v = videoId.

(** Flags that satisfy the invariant. *)
Definition settled (f : option (bool * option string)) : Prop :=
  forall e, f = Some (true, e) -> e = None.

(** No row of one of the videos [vs] is marked processed. *)
Definition pending (s : store) (vs : list video) : Prop :=
  forall v, In v vs -> forall p e, flagsAt s (video_id v) = Some (p, e) -> p = false.

(** An action that leaves the [videos] table keyed. *)
Definition keepsKeyed {A} (c : action A) : Prop :=
  forall s, keyed s -> keyed (snd (c s)).

(** The stored flags of a video are consistent. *)
Definition flagsConsistent (v : video) : Prop :=
  processed v = true -> processing_error v = None.

(** The invariant of the [videos] table. *)
Definition videosConsistent (s : store) : Prop :=
  forall videoId v, videos s !! videoId = Some v -> flagsConsistent v.

(** *** Notions for the rest of the code *)

(** [d] is made of decimal digits. *)
Fixpoint allDigits (d : string) : bool :=
  match d with
  | EmptyString => true
  | String c r => YouTubeService.isDigit c && allDigits r
  end.

(** One component of a duration as the video provider writes it: the
    number and its unit letter, or nothing. *)
Definition durationPart (n : option Z) (unit : ascii) : string :=
  match n with
  | Some k => numberToString k +:+ String unit ""
  | None => ""
  end.

(** A duration of the provider: [PT], then hours, minutes and seconds,
    each of them optional. *)
Definition durationString (h m s : option Z) : string :=
  "PT" +:+ durationPart h "H" +:+ durationPart m "M" +:+ durationPart s "S".

Definition partValue (n : option Z) : Z :=
  match n with
  | Some k => k
  | None => 0
  end.

Definition nonNegative (n : option Z) : Prop :=
  match n with
  | Some k => 0 <= k
  | None => True
  end.

(** [i] can be the identifier of a video in an address. *)
Fixpoint idChars (i : string) : bool :=
  match i with
  | EmptyString => true
  | String c r => YouTubeService.isIdChar c && idChars r
  end.

(** [i] can be the name of a channel in an address. *)
Fixpoint channelChars (i : string) : bool :=
  match i with
  | EmptyString => true
  | String c r => YouTubeService.isChannelChar c && channelChars r
  end.

(** [s] is empty or starts with a character that cannot go on an
    identifier. *)
Definition endsId (s : string) : Prop :=
  match s with
  | EmptyString => True
  | String c _ => YouTubeService.isIdChar c = false
  end.

(** An element of the answer on which the validation throws: [null], or
    an object whose name is truthy and not a string. *)
Definition throwingItem (item : rawItem) : Prop :=
  match item with
  | ItemNull => True
  | ItemOther => False
  | ItemObj r =>
      match raw_name r with
      | JStr _ => False
      | v => truthy v = true
      end
  end.

(** A price range after validation. *)
Definition normalPrice (v : jsval) : Prop :=
  v = JNull \/ exists s, In s validRanges /\ v = JStr s.

(** Every recommendation refers to a stored restaurant. *)
Definition linked (s : store) : Prop :=
  forall rec, In rec (recommendations s) ->
              exists r, In r (restaurants s)
                        /\ restaurant_id r = rec_restaurant_id (recommendation_data rec).

(** An action that keeps a property of the store. *)
Definition keeps (P : store -> Prop) {A} (c : action A) : Prop :=
  forall s, P s -> P (snd (c s)).

(** The restaurant data the orchestrator writes for a candidate. *)
Definition dataOf (rec : candidate) : restaurantData :=
  {| rd_name := name rec;
     rd_address := address rec;
     rd_city := location rec;
     rd_cuisine_type := cuisineType rec;
     rd_price_range := priceRange rec |}.

(** The database finds again, under the name and city of a candidate,
    the restaurant created for it. *)
Definition findsOwn (db : database) (rec : candidate) : Prop :=
  forall i, ilikeRestaurant db (name rec) (location rec)
                            {| restaurant_id := i; restaurant_data := dataOf rec |} = true.

(** Every video of [vs] has a row. *)
Definition allStored (s : store) (vs : list video) : Prop :=
  forall v, In v vs -> is_Some (videos s !! video_id v).

End Notions.

(** ** Inputs of the examples *)

Module Examples.

Import YoutubeTranscript AIService TimestampService SupabaseService.

(** A candidate of the model's answer whose confidence is the number
    0. *)
Definition zeroConfidence : rawRestaurant :=
  {| raw_name := JStr "Pasta House"; raw_location := JStr "Rome";
     raw_address := JUndefined; raw_cuisineType := JStr "Italian";
     raw_dishMentioned := JStr "carbonara"; raw_context := JUndefined;
     raw_confidenceScore := JNum 0; raw_priceRange := JStr "$$";
     raw_mentionedAt := JNull |}.

Definition caption (t : string) (ms : Z) : entry := {| text := Some t; offset := ms |}.

(** The name is said in the first caption; its two words and three
    words of the context come, apart, in the sixth. *)
Definition tour : list entry :=
  [ caption "Next stop is Pasta House" 1500;
    caption "let us walk" 10000;
    caption "across the river" 20000;
    caption "it is a sunny day" 30000;
    caption "and here we are" 40000;
    caption "a house of pasta with great noodles tonight" 50000;
    caption "see you" 60000 ].

(** A candidate for which the model gave a time of its own, and which
    the captions of [tour] hardly mention. *)
Definition sushiBar : candidate :=
  {| name := "Sushi Bar"; location := JStr "Rome"; address := JNull;
     cuisineType := JStr "Japanese"; dishMentioned := JNull;
     context := JStr "fresh nigiri"; confidenceScore := JNum (9 # 10);
     priceRange := JNull; mentionedAt := JNum 450 |}.

Definition pastaHouse : candidate :=
  {| name := "Pasta House"; location := JStr "Rome"; address := JNull;
     cuisineType := JStr "Italian"; dishMentioned := JStr "carbonara";
     context := JStr "great noodles tonight"; confidenceScore := JNum (9 # 10);
     priceRange := JStr "$$"; mentionedAt := JNull |}.

(** A transcript with an entry that has no text. *)
Definition broken : list entry :=
  [ caption "welcome back" 0; {| text := None; offset := 4000 |} ].

(** A database that rejects nothing and matches names and cities as
    substrings, letter case aside. *)
Definition plainDb : database :=
  {| rejects := fun _ => None;
     ilikeRestaurant := fun name city r =>
       includes (toLowerCase (rd_name (restaurant_data r))) (toLowerCase name)
       && match city, rd_city (restaurant_data r) with
          | JStr c, JStr rc =>
              if String.eqb c "" then true else includes (toLowerCase rc) (toLowerCase c)
          | JStr c, _ => String.eqb c ""
          | _, _ => negb (truthy city)
          end;
     now := 1700000000;
     fresh_id := fun s =>
       (size (videos s) + length (restaurants s) + length (recommendations s))%nat |}.

(** Services with no captions at hand for the transcript, the captions
    of [tour] for the times, and a model that answers with one
    restaurant. *)
Definition studio : Processing.services :=
  {| Processing.db := plainDb;
     Processing.fetchTranscript := fun _ => Throw "Transcript is disabled on this video";
     Processing.fetchTimedTranscript := fun _ => Ok tour;
     Processing.rapidApi := fun _ => YouTubeService.RequestFailed "timeout of 30000ms exceeded";
     Processing.completion := fun _ _ => Ok (RestaurantsArray [ItemObj zeroConfidence]);
     Processing.StringToNumber := fun _ => None;
     Processing.getVideoDetails := fun _ => Throw "Video not found";
     Processing.getOrCreateInfluencer := fun _ => Ok 1%nat |}.

Definition romeTour : video :=
  {| id := 7; video_id := "rome01"; title := "Rome Food Tour";
     description := Some "I went to Pasta House in Rome, amazing carbonara!";
     duration := Some "PT12M30S"; transcript := None;
     processed := false; processing_error := None; created_at := 1690000000 |}.

Definition osakaTour : video :=
  {| id := 3; video_id := "osaka7"; title := "Osaka Night Market";
     description := None; duration := Some "PT20M"; transcript := Some "so good";
     processed := true; processing_error := None; created_at := 1680000000 |}.

Definition shelf : store :=
  {| videos := <["rome01" := romeTour]> (<["osaka7" := osakaTour]> ∅);
     restaurants := [];
     recommendations := [] |}.

(** The same services with a database that refuses every
    recommendation record. *)
Definition noLinks : Processing.services :=
  {| Processing.db :=
       {| rejects := fun q => match q with
                              | CreateRecommendation _ => Some "connection reset"
                              | _ => None
                              end;
          ilikeRestaurant := ilikeRestaurant plainDb;
          now := now plainDb;
          fresh_id := fresh_id plainDb |};
     Processing.fetchTranscript := Processing.fetchTranscript studio;
     Processing.fetchTimedTranscript := Processing.fetchTimedTranscript studio;
     Processing.rapidApi := Processing.rapidApi studio;
     Processing.completion := Processing.completion studio;
     Processing.StringToNumber := Processing.StringToNumber studio;
     Processing.getVideoDetails := Processing.getVideoDetails studio;
     Processing.getOrCreateInfluencer := Processing.getOrCreateInfluencer studio |}.

(** The same services with a model that finds no restaurant. *)
Definition nothingFound : Processing.services :=
  {| Processing.db := plainDb;
     Processing.fetchTranscript := Processing.fetchTranscript studio;
     Processing.fetchTimedTranscript := Processing.fetchTimedTranscript studio;
     Processing.rapidApi := Processing.rapidApi studio;
     Processing.completion := fun _ _ => Ok (RestaurantsArray []);
     Processing.StringToNumber := Processing.StringToNumber studio;
     Processing.getVideoDetails := Processing.getVideoDetails studio;
     Processing.getOrCreateInfluencer := Processing.getOrCreateInfluencer studio |}.

(** A video with neither transcript nor description. *)
Definition silentClip : video :=
  {| id := 9; video_id := "quiet1"; title := "Untitled";
     description := Some ""; duration := Some "PT5M"; transcript := None;
     processed := false; processing_error := None; created_at := 1695000000 |}.

Definition quietShelf : store :=
  {| videos := <["quiet1" := silentClip]> ∅; restaurants := []; recommendations := [] |}.

End Examples.

(** * Properties *)

Import Notions Examples.

(** ** Strings *)

Section Strings.

Lemma append_cons (c : ascii) (s t : string) :
  String c s +:+ t = String c (s +:+ t).
Proof. reflexivity. Qed.

Lemma prefix_append (n h : string) :
  String.prefix n h = true <-> exists post, h = n +:+ post.
Proof.
  revert h. induction n as [|a n IH]; intros h.
  - split; [intros _; exists h; reflexivity | intros _; destruct h; reflexivity].
  - destruct h as [|b h]; simpl.
    + split; [discriminate | intros [post H]; discriminate H].
    + destruct (ascii_dec a b) as [->|Hne].
      * rewrite IH. split; intros [post H]; exists post.
        -- rewrite append_cons. congruence.
        -- rewrite append_cons in H. congruence.
      * split; [discriminate|].
        intros [post H]. rewrite append_cons in H. congruence.
Qed.

(** [includes] is the substring test. *)
Lemma includes_substring (h n : string) :
  includes h n = true <-> exists pre post, h = pre +:+ n +:+ post.
Proof.
  induction h as [|c r IH].
  - change (includes "" n) with (String.prefix n "" || false).
    rewrite orb_false_r, prefix_append. split.
    + intros [post H]. exists "", post. exact H.
    + intros ([|c pre] & post & H); [exists post; exact H | discriminate H].
  - change (includes (String c r) n) with (String.prefix n (String c r) || includes r n).
    rewrite orb_true_iff, prefix_append, IH. split.
    + intros [[post H]|(pre & post & H)].
      * exists "", post. exact H.
      * exists (String c pre), post. rewrite append_cons. congruence.
    + intros ([|c' pre] & post & H).
      * left. exists post. exact H.
      * right. rewrite append_cons in H. injection H as _ H. eauto.
Qed.

End Strings.

(** ** The duration filter *)

Section DurationFilter.

Import YouTubeService.

Lemma hasNonFoodKeyword_false (t : string) :
  hasNonFoodKeyword t = false <->
  forall keyword, In keyword nonFoodKeywords -> includes t keyword = false.
Proof.
  unfold hasNonFoodKeyword. split.
  - intros H keyword Hin.
    destruct (includes t keyword) eqn:E; [|reflexivity].
    assert (existsb (fun k => includes t k) nonFoodKeywords = true) as Hx
        by (apply existsb_exists; exists keyword; auto).
    congruence.
  - intros H.
    destruct (existsb _ _) eqn:E; [|reflexivity].
    apply existsb_exists in E as (k & Hin & Hk).
    rewrite (H k Hin) in Hk. discriminate.
Qed.

Example parseDuration_hours_minutes_seconds :
  parseDuration (Some "PT1H2M10S") = 3730.
Proof. reflexivity. Qed.

Example parseDuration_samples :
  parseDuration (Some "PT45S") = 45
  /\ parseDuration (Some "PT2M") = 120
  /\ parseDuration (Some "P1DT2M") = 0
  /\ parseDuration (Some "xxPT3Mzz") = 180.
Proof. repeat split; reflexivity. Qed.

Lemma parseDuration_missing : parseDuration None = 0.
Proof. reflexivity. Qed.

Lemma parseDuration_unparseable (d : string) :
  afterPT d = None -> parseDuration (Some d) = 0.
Proof.
  intros H. unfold parseDuration. rewrite H.
  destruct (String.eqb d ""); reflexivity.
Qed.

(** C6, as the code has it: a video is suitable exactly when its parsed
    duration is at least 120 seconds and its lowercased title contains
    none of the six denylisted words; so the predicate is false below
    120 seconds and true from 120 seconds on for a clean title. *)
Theorem suitable_iff_two_minutes_and_clean_title (v : videoData) :
  isVideoSuitableForProcessing v = true
  <-> 120 <= parseDuration (duration v) /\ cleanTitle (title v).
Proof.
  unfold isVideoSuitableForProcessing, cleanTitle.
  destruct (Z.leb_spec (parseDuration (duration v)) 60) as [H60|H60].
  { split; [discriminate | intros [H _]; lia]. }
  destruct (Z.ltb_spec (parseDuration (duration v)) 120) as [H120|H120].
  { split; [discriminate | intros [H _]; lia]. }
  destruct (hasNonFoodKeyword (toLowerCase (title v))) eqn:E.
  - split; [discriminate|].
    intros [_ Hclean]. apply hasNonFoodKeyword_false in Hclean. congruence.
  - split; [|reflexivity].
    intros _. split; [lia|]. now apply hasNonFoodKeyword_false.
Qed.

(** C6 fails as stated: a video of exactly 120 seconds with a clean
    title is accepted. *)
Lemma two_minute_video_is_suitable :
  parseDuration (duration {| duration := Some "PT2M"; title := "Tokyo Street Food Tour" |}) <= 120
  /\ isVideoSuitableForProcessing
       {| duration := Some "PT2M"; title := "Tokyo Street Food Tour" |} = true.
Proof. split; [vm_compute; discriminate | reflexivity]. Qed.

(** C7, as the code has it: a video whose duration is unknown, so that
    its parsed value is zero, is rejected by the suitability predicate
    whatever its title says; it is the duration filter of the query for
    unprocessed videos that keeps a video without a duration. *)
Theorem unknown_duration_is_rejected (v : videoData) :
  parseDuration (duration v) = 0 ->
  isVideoSuitableForProcessing v = false
  /\ forall row : SupabaseService.video,
       SupabaseService.duration row = None -> SupabaseService.longEnough row = true.
Proof.
  intros H. split.
  - unfold isVideoSuitableForProcessing. rewrite H. reflexivity.
  - intros row Hrow. unfold SupabaseService.longEnough. rewrite Hrow. reflexivity.
Qed.

Lemma unknown_duration_is_rejected_witness :
  parseDuration (duration {| duration := Some "ten minutes"; title := "Lisbon Food Guide" |}) = 0
  /\ isVideoSuitableForProcessing
       {| duration := Some "ten minutes"; title := "Lisbon Food Guide" |} = false.
Proof.
  split; [reflexivity|].
  apply (unknown_duration_is_rejected
           {| duration := Some "ten minutes"; title := "Lisbon Food Guide" |}).
  reflexivity.
Defined.

(** C7 fails as stated: a video without a duration and with a clean
    title is not accepted. *)
Lemma missing_duration_is_not_accepted :
  parseDuration (duration {| duration := None; title := "Lisbon Food Guide" |}) = 0
  /\ hasNonFoodKeyword (toLowerCase "Lisbon Food Guide") = false
  /\ isVideoSuitableForProcessing {| duration := None; title := "Lisbon Food Guide" |} = false.
Proof. repeat split. Qed.

End DurationFilter.

(** ** Lists of calls that may throw *)

Section ResultLists.

Context {A B : Type}.

Lemma mapM_Ok_Forall2 (f : A -> result B) (l : list A) (l' : list B) :
  mapM f l = Ok l' -> Forall2 (fun x y => f x = Ok y) l l'.
Proof.
  revert l'. induction l as [|x xs IH]; simpl; intros l' H.
  - injection H as <-. constructor.
  - destruct (f x) as [y|m] eqn:Ex; [|discriminate].
    destruct (mapM f xs) as [ys|m]; [|discriminate].
    injection H as <-. constructor; auto.
Qed.

Lemma mapM_total (f : A -> result B) (g : A -> B) (l : list A) :
  Forall (fun x => f x = Ok (g x)) l -> mapM f l = Ok (map g l).
Proof.
  induction 1 as [|x xs Hx _ IH]; simpl; [reflexivity|].
  rewrite Hx, IH. reflexivity.
Qed.

Lemma mapM_Throw_Exists (f : A -> result B) (l : list A) :
  Exists (fun x => exists m, f x = Throw m) l -> exists m, mapM f l = Throw m.
Proof.
  induction 1 as [x xs [m Hm]|x xs _ [m IH]]; simpl.
  - rewrite Hm. eauto.
  - destruct (f x); [rewrite IH|]; eauto.
Qed.

Lemma filterM_Ok_Forall (f : A -> result bool) (l l' : list A) :
  AIService.filterM f l = Ok l' -> Forall (fun x => f x = Ok true) l'.
Proof.
  revert l'. induction l as [|x xs IH]; simpl; intros l' H.
  - injection H as <-. constructor.
  - destruct (f x) as [b|m] eqn:Ex; [|discriminate].
    destruct (AIService.filterM f xs) as [ys|m]; [|discriminate].
    injection H as <-. destruct b; auto.
Qed.

End ResultLists.

(** ** The extractor's validation *)

Section Extractor.

Import AIService.

Variable StringToNumber : string -> option Q.

Lemma kept_confidence_at_least (cs : jsval) :
  reasonableConfidence StringToNumber cs = true ->
  ge StringToNumber (or_else cs (JNum (8 # 10))) (6 # 10) = true.
Proof.
  unfold reasonableConfidence, or_else.
  destruct (truthy cs); simpl.
  - rewrite orb_false_r. auto.
  - reflexivity.
Qed.

Lemma absent_confidence_defaults :
  or_else JUndefined (JNum (8 # 10)) = JNum (8 # 10)
  /\ or_else JNull (JNum (8 # 10)) = JNum (8 # 10).
Proof. split; reflexivity. Qed.

Lemma formatted_of_kept (item : rawItem) (c : candidate) :
  keepRestaurant StringToNumber item = Ok true ->
  formatRestaurant item = Ok c ->
  name c <> "" /\ ge StringToNumber (confidenceScore c) (6 # 10) = true.
Proof.
  destruct item as [| |r]; simpl; try discriminate.
  destruct (truthy (raw_name r)); [|discriminate].
  destruct (raw_name r) as [| | | |s]; try discriminate.
  intros Hk Hf. injection Hk as Hk. injection Hf as <-. simpl.
  apply andb_true_iff in Hk as [Hlen Hcs]. split.
  - intros E. rewrite E in Hlen. discriminate.
  - now apply kept_confidence_at_least.
Qed.

(** What holds of everything the validation returns: a non-empty name
    and a confidence that compares [>= 0.6]. *)
Lemma validated_candidates (recommendations : parsedResponse) (l : list candidate) :
  validateAndFormatRecommendations StringToNumber recommendations = Ok l ->
  Forall (fun c => name c <> ""
                   /\ ge StringToNumber (confidenceScore c) (6 # 10) = true) l.
Proof.
  destruct recommendations as [|items]; simpl.
  - intros H. injection H as <-. constructor.
  - destruct (filterM (keepRestaurant StringToNumber) items) as [kept|m] eqn:Ek;
      simpl; [|discriminate].
    intros Hm. apply filterM_Ok_Forall in Ek. apply mapM_Ok_Forall2 in Hm.
    induction Hm as [|x y xs ys Hxy _ IH]; constructor.
    + inversion Ek; subst. eapply formatted_of_kept; eauto.
    + inversion Ek; subst. auto.
Qed.

(** A candidate whose confidence is a number other than zero and below
    0.6 is dropped. *)
Lemma low_confidence_dropped (r : rawRestaurant) (q : Q) :
  raw_confidenceScore r = JNum q -> ~ (q == 0)%Q -> (q < 6 # 10)%Q ->
  keepRestaurant StringToNumber (ItemObj r) = Ok false
  \/ exists m, keepRestaurant StringToNumber (ItemObj r) = Throw m.
Proof.
  intros Hcs Hnz Hlt. simpl.
  destruct (truthy (raw_name r)); [|now left].
  destruct (raw_name r); eauto.
  left. f_equal. apply andb_false_iff. right.
  unfold reasonableConfidence, ge. rewrite Hcs. simpl.
  apply orb_false_iff. split.
  - destruct (Qle_bool (6 # 10) q) eqn:E; [|reflexivity].
    apply Qle_bool_iff in E. exfalso. apply (Qlt_not_le _ _ Hlt E).
  - apply negb_false_iff, negb_true_iff.
    destruct (Qeq_bool q 0) eqn:E; [|reflexivity].
    apply Qeq_bool_iff in E. contradiction.
Qed.

(** C2 at a candidate whose confidence is the number 0: it is present
    and below 0.6, yet the validation keeps the candidate and gives it
    the confidence 0.8. *)
Theorem zero_confidence_is_kept :
  validateAndFormatRecommendations StringToNumber (RestaurantsArray [ItemObj zeroConfidence])
  = Ok [ {| name := "Pasta House"; location := JStr "Rome"; address := JNull;
            cuisineType := JStr "Italian"; dishMentioned := JStr "carbonara";
            context := JNull; confidenceScore := JNum (8 # 10);
            priceRange := JStr "$$"; mentionedAt := JNull |} ].
Proof. reflexivity. Qed.

End Extractor.

(** ** Transcript acquisition *)

Section Transcripts.

Import YouTubeService.

Lemma getRapidApiTranscript_Ok (rapid : rapidOutcome) (t : string) :
  getRapidApiTranscript rapid = Ok t <-> fallbackGives rapid t.
Proof.
  unfold fallbackGives. split.
  - destruct rapid as [tr|st msg|m]; simpl; try discriminate.
    destruct tr as [|s|entries|]; simpl; try discriminate.
    + destruct (String.eqb_spec s ""); simpl; [discriminate|].
      intros H. injection H as <-. left. auto.
    + destruct (mapM rapidEntryText entries) as [texts|m] eqn:E; simpl; [|discriminate].
      intros H. injection H as <-. right. eauto.
  - intros [[-> Hne]|(entries & texts & -> & Hm & ->)]; simpl.
    + destruct (String.eqb_spec t ""); [contradiction|reflexivity].
    + rewrite Hm. reflexivity.
Qed.

(** C5, as the code has it: the threshold of 50 characters is applied
    to the primary source only.  A transcript is returned exactly when
    the primary text is longer than 50 characters once trimmed, or the
    primary source is unusable and the fallback provider answers with a
    non-empty string or with an array, whatever its length. *)
Theorem getVideoTranscript_returns
        (fetched : result (list YoutubeTranscript.entry)) (rapid : rapidOutcome)
        (t : string) :
  getVideoTranscript fetched rapid = Ok t
  <-> (exists transcriptArray,
          fetched = Ok transcriptArray
          /\ 50 < strlen (trim (captionText transcriptArray))
          /\ t = captionText transcriptArray)
      \/ (primaryUnusable fetched /\ fallbackGives rapid t).
Proof.
  rewrite <- getRapidApiTranscript_Ok.
  unfold getVideoTranscript, primaryUnusable.
  destruct fetched as [arr|m]; simpl.
  - destruct (Z.ltb_spec 50 (strlen (trim (captionText arr)))) as [Hlong|Hshort]; simpl.
    + split.
      * intros H. injection H as <-. left. eauto.
      * intros [(arr' & E & _ & ->)|[Hle _]]; [injection E as <-; reflexivity | lia].
    + destruct (getRapidApiTranscript rapid) as [t'|m'] eqn:Er; simpl.
      * split.
        -- intros H. injection H as <-. right. auto.
        -- intros [(arr' & E & Hlt & _)|[_ E]]; [injection E as <-; lia | exact E].
      * split; [discriminate|].
        intros [(arr' & E & Hlt & _)|[_ E]]; [injection E as <-; lia | discriminate].
  - destruct (getRapidApiTranscript rapid) as [t'|m'] eqn:Er; simpl.
    + split.
      * intros H. injection H as <-. right. auto.
      * intros [(arr' & E & _)|[_ E]]; [discriminate | exact E].
    + split; [discriminate|].
      intros [(arr' & E & _)|[_ E]]; discriminate.
Qed.

(** C5 fails as stated: when the primary source fails, a two-character
    answer of the fallback provider is returned. *)
Lemma short_fallback_transcript_is_returned :
  getVideoTranscript (Throw "Transcript is disabled on this video")
                     (Response (TranscriptString "ok")) = Ok "ok"
  /\ strlen (trim "ok") <= 50.
Proof. split; [reflexivity | vm_compute; discriminate]. Qed.

End Transcripts.

(** ** Timestamp reconciliation *)

Section Reconciler.

Import YoutubeTranscript AIService TimestampService.

Lemma stamp_wellFormed (transcriptArray : list entry) :
  wellFormed transcriptArray -> mapM stamp transcriptArray = Ok (stampAll transcriptArray).
Proof.
  intros H. unfold stampAll. apply mapM_total.
  eapply List.Forall_impl; [|exact H].
  intros e He. unfold stamp. destruct (text e) eqn:E; [reflexivity|congruence].
Qed.

Lemma stamp_malformed (transcriptArray : list entry) :
  Exists (fun e => text e = None) transcriptArray ->
  exists m, mapM stamp transcriptArray = Throw m.
Proof.
  intros H. apply mapM_Throw_Exists.
  eapply List.Exists_impl; [|exact H].
  intros e He. unfold stamp. rewrite He. eauto.
Qed.

(** The accumulation of [forEach] adds up the weights of the terms
    found. *)
Lemma fold_scoreStep (restaurantName w : string) (terms : list string) (acc : Z) :
  fold_left (scoreStep restaurantName w) terms acc
  = acc + fold_right Z.add 0
            (map (termWeight restaurantName) (List.filter (includes w) terms)).
Proof.
  revert acc. induction terms as [|t ts IH]; intros acc; simpl; [lia|].
  rewrite IH. unfold scoreStep, termWeight.
  destruct (includes w t); simpl; [|reflexivity].
  destruct (String.eqb t (toLowerCase restaurantName)); lia.
Qed.

Lemma windowScore_nonneg (ts : list stamped) (restaurantName : string)
      (terms : list string) (i : nat) :
  0 <= windowScore ts restaurantName terms i.
Proof.
  unfold windowScore.
  induction (List.filter (includes (windowText ts i)) terms) as [|t l IH]; simpl; [lia|].
  unfold termWeight at 1. destruct (String.eqb t (toLowerCase restaurantName)); lia.
Qed.

Lemma scan_invariant (ts : list stamped) (restaurantName : string)
      (terms : list string) (k : nat) :
  (k <= length ts)%nat ->
  scanned ts (windowScore ts restaurantName terms) k
          (fold_left (scanStep ts restaurantName terms) (seq 0 k) (None, 0)).
Proof.
  induction k as [|k IH]; intros Hk.
  - simpl. split; [intros j Hj; lia | reflexivity].
  - rewrite seq_S, fold_left_app. simpl.
    destruct (fold_left _ (seq 0 k) (None, 0)) as [bm bs] eqn:Ef.
    destruct IH as [Hmax Hbest]; [lia|]. simpl in Hmax, Hbest.
    unfold scanStep.
    destruct (nth_error ts k) as [e|] eqn:Ee.
    2:{ apply nth_error_None in Ee. lia. }
    rewrite fold_scoreStep, Z.add_0_l. simpl.
    fold (windowScore ts restaurantName terms k).
    set (score := windowScore ts restaurantName terms) in *.
    destruct (Z.ltb_spec bs (score k)) as [Hlt|Hge]; split; simpl.
    + intros j Hj. destruct (Nat.eq_dec j k) as [->|Hne]; [lia|].
      specialize (Hmax j). lia.
    + exists k, e. repeat split; auto; try lia.
      * destruct bm as [t|]; [|lia].
        destruct Hbest as (i & e' & _ & _ & _ & Hbs & Hpos & _). lia.
      * intros j Hj. specialize (Hmax j Hj). lia.
    + intros j Hj. destruct (Nat.eq_dec j k) as [->|Hne]; [lia|].
      apply Hmax. lia.
    + destruct bm as [t|]; [|exact Hbest].
      destruct Hbest as (i & e' & Hi & Hnth & Ht & Hbs & Hpos & Hfirst).
      exists i, e'. repeat split; auto.
Qed.

Lemma stampAll_length (tr : list entry) : length (stampAll tr) = length tr.
Proof. unfold stampAll. apply length_map. Qed.

Lemma stampAll_nth (tr : list entry) (k : nat) (s : stamped) :
  nth_error (stampAll tr) k = Some s ->
  exists e, nth_error tr k = Some e /\ st_timestamp s = offset e / 1000.
Proof.
  unfold stampAll. rewrite nth_error_map.
  destruct (nth_error tr k) as [e|]; simpl; [|discriminate].
  intros H. injection H as <-. eauto.
Qed.

(** What [findRestaurantTimestamp] computes on a transcript whose
    entries all have a text. *)
Lemma findRestaurantTimestamp_scored (tr : list entry) (restaurantName : string)
      (context : jsval) (lowerContext : string) :
  wellFormed tr ->
  contextLower context = Ok lowerContext ->
  exists r, findRestaurantTimestamp tr restaurantName context = Ok r
            /\ scoredResult tr restaurantName lowerContext r.
Proof.
  intros Hwf Hctx. unfold findRestaurantTimestamp.
  destruct tr as [|e0 tr0] eqn:Etr.
  { exists None. split; [reflexivity|]. simpl. intros j Hj. lia. }
  rewrite <- Etr in *. clear Etr e0 tr0.
  rewrite (stamp_wellFormed tr Hwf), Hctx. simpl.
  pose proof (scan_invariant (stampAll tr) restaurantName
                (searchTerms restaurantName lowerContext)
                (length (stampAll tr)) (Nat.le_refl _)) as Hinv.
  destruct (fold_left _ _ (None, 0)) as [bm bs].
  destruct Hinv as [Hmax Hbest]. simpl in Hmax, Hbest.
  rewrite stampAll_length in Hmax.
  unfold scoredResult.
  destruct (Z.leb_spec 2 bs) as [H2|H2].
  - exists bm. split; [reflexivity|].
    destruct bm as [t|]; [|lia].
    destruct Hbest as (i & s & Hi & Hnth & Ht & Hbs & Hpos & Hfirst).
    apply stampAll_nth in Hnth as (e & He & Hts).
    exists i, e. repeat split; auto; try lia; try congruence.
    intros j Hj. specialize (Hmax j Hj). lia.
  - exists None. split; [reflexivity|].
    intros j Hj. specialize (Hmax j Hj). lia.
Qed.

End Reconciler.

Section Reconciliation.

Import YoutubeTranscript AIService TimestampService.

(** The window of position [i] holds the entries from two before [i] to
    two after it, as far as the transcript goes. *)
Lemma contextWindow_nth (ts : list stamped) (i j : nat) (x : stamped) :
  nth_error (contextWindow ts i) j = Some x
  <-> (j + (i - 2) <= i + 2)%nat /\ nth_error ts (i - 2 + j) = Some x.
Proof.
  unfold contextWindow. rewrite Nat.max_0_l.
  split.
  - intros H.
    assert (j < Nat.min (length ts) (i + 3) - (i - 2))%nat as Hj.
    { destruct (Nat.lt_ge_cases j (Nat.min (length ts) (i + 3) - (i - 2))) as [|Hge]; auto.
      assert (nth_error (firstn (Nat.min (length ts) (i + 3) - (i - 2)) (skipn (i - 2) ts)) j
              = None) as Hn.
      { apply nth_error_None. rewrite length_firstn. lia. }
      congruence. }
    rewrite nth_error_firstn in H.
    destruct (Nat.ltb_spec j (Nat.min (length ts) (i + 3) - (i - 2))); [|lia].
    rewrite nth_error_skipn in H. split; [lia|exact H].
  - intros [Hj Hx].
    assert (i - 2 + j < length ts)%nat as Hlen
        by (apply nth_error_Some; congruence).
    rewrite nth_error_firstn.
    destruct (Nat.ltb_spec j (Nat.min (length ts) (i + 3) - (i - 2))); [|lia].
    rewrite nth_error_skipn. exact Hx.
Qed.

(** C8, as the code has it.  The terms are the lowercased name, its
    pieces between single spaces and the pieces of the lowercased
    context longer than 3 characters, all of them kept only when longer
    than 2 characters and counted as often as they are listed; a term
    found in the text of the window (two entries before the position to
    two after) counts 1, and 3 when it is the whole name; the value
    returned is the whole seconds of the first position with the
    highest score when that score is at least 2, and [null]
    otherwise. *)
Theorem findRestaurantTimestamp_best_window
        (tr : list entry) (restaurantName : string) (context : jsval)
        (lowerContext : string) :
  wellFormed tr ->
  contextLower context = Ok lowerContext ->
  (forall i j x,
      nth_error (contextWindow (stampAll tr) i) j = Some x
      <-> (j + (i - 2) <= i + 2)%nat /\ nth_error (stampAll tr) (i - 2 + j) = Some x)
  /\ exists r, findRestaurantTimestamp tr restaurantName context = Ok r
               /\ scoredResult tr restaurantName lowerContext r.
Proof.
  intros Hwf Hctx. split.
  - intros i j x. apply contextWindow_nth.
  - now apply findRestaurantTimestamp_scored.
Qed.

Lemma findRestaurantTimestamp_best_window_witness :
  wellFormed tour
  /\ contextLower (JStr "great noodles tonight") = Ok "great noodles tonight"
  /\ exists r,
      findRestaurantTimestamp tour "Pasta House" (JStr "great noodles tonight") = Ok r
      /\ scoredResult tour "Pasta House" "great noodles tonight" r.
Proof.
  assert (wellFormed tour) as Hwf
      by (unfold wellFormed, tour; repeat constructor; discriminate).
  split; [exact Hwf|]. split; [reflexivity|].
  apply (proj2 (findRestaurantTimestamp_best_window
                  tour "Pasta House" (JStr "great noodles tonight")
                  "great noodles tonight" Hwf eq_refl)).
Defined.

(** C8 fails as stated: with the name at weight 2 the first caption of
    [tour] scores 4 and the window of the sixth scores 5, so no
    best-scoring position has the time the code returns, which is that
    of the first caption. *)
Lemma name_weighs_more_than_claimed :
  findRestaurantTimestamp tour "Pasta House" (JStr "great noodles tonight") = Ok (Some 1)
  /\ ~ claimedResult tour "Pasta House" "great noodles tonight" (Some 1).
Proof.
  split; [reflexivity|].
  intros (k & e & Hnth & Ht & _ & Hmax).
  assert (claimedScore (stampAll tour) "Pasta House" "great noodles tonight" 3
          <= claimedScore (stampAll tour) "Pasta House" "great noodles tonight" k) as H3
      by (apply Hmax; simpl; lia).
  do 7 (destruct k as [|k];
        [ simpl in Hnth; injection Hnth as <-;
          first [ discriminate Ht | vm_compute in H3; apply H3; reflexivity ] | ]).
  destruct k; discriminate Hnth.
Qed.

Lemma enhanceOne_malformed (tr : list entry) (rec : candidate) :
  Exists (fun e => text e = None) tr -> exists m, enhanceOne tr rec = Throw m.
Proof.
  intros H. unfold enhanceOne, findRestaurantTimestamp.
  destruct (stamp_malformed tr H) as [m Hm].
  destruct tr as [|e tr']; [inversion H|].
  rewrite Hm. simpl. eauto.
Qed.

(** C9: reconciliation always returns a list and never an error; when
    fetching the transcript fails, when the transcript is empty, when
    one of its entries has no text, or when anything is thrown while
    matching, the list returned is the list given. *)
Theorem enhance_never_raises (fetched : result (list entry)) (recs : list candidate) :
  (exists out, enhanceRecommendationsWithTimestamps fetched recs = Ok out)
  /\ (forall m, fetched = Throw m ->
                enhanceRecommendationsWithTimestamps fetched recs = Ok recs)
  /\ (fetched = Ok [] -> enhanceRecommendationsWithTimestamps fetched recs = Ok recs)
  /\ (forall tr, fetched = Ok tr -> Exists (fun e => text e = None) tr ->
                 enhanceRecommendationsWithTimestamps fetched recs = Ok recs)
  /\ (forall tr m, fetched = Ok tr -> mapM (enhanceOne tr) recs = Throw m ->
                   enhanceRecommendationsWithTimestamps fetched recs = Ok recs).
Proof.
  unfold enhanceRecommendationsWithTimestamps. repeat split.
  - destruct ((length (getTranscriptWithTimestamps fetched) =? 0)%nat); simpl; eauto.
    destruct (mapM _ recs); simpl; eauto.
  - intros m ->. reflexivity.
  - intros ->. reflexivity.
  - intros tr -> Hex. simpl.
    destruct tr as [|e tr']; [reflexivity|]. simpl.
    destruct recs as [|rec recs']; [reflexivity|]. simpl.
    destruct (enhanceOne_malformed (e :: tr') rec Hex) as [m ->]. reflexivity.
  - intros tr m -> Hm. simpl.
    destruct ((length tr =? 0)%nat); [reflexivity|].
    rewrite Hm. reflexivity.
Qed.

Lemma enhance_never_raises_witness :
  Exists (fun e => text e = None) broken
  /\ enhanceRecommendationsWithTimestamps (Ok broken) [pastaHouse; sushiBar]
     = Ok [pastaHouse; sushiBar].
Proof.
  assert (Exists (fun e => text e = None) broken) as Hex
      by (unfold broken; apply Exists_cons_tl, Exists_cons_hd; reflexivity).
  split; [exact Hex|].
  apply (enhance_never_raises (Ok broken) [pastaHouse; sushiBar]) with (tr := broken).
  - reflexivity.
  - exact Hex.
Defined.

Lemma enhanceOne_reconciled (tr : list entry) (rec : candidate) (r : option Z) :
  findRestaurantTimestamp tr (name rec) (context rec) = Ok r ->
  enhanceOne tr rec = Ok (reconciled tr rec).
Proof. intros H. unfold enhanceOne, reconciled. rewrite H. reflexivity. Qed.

Lemma reconciled_frame (tr : list entry) (rec : candidate) :
  sameButMentionedAt rec (reconciled tr rec).
Proof.
  unfold sameButMentionedAt, reconciled.
  destruct (findRestaurantTimestamp tr (name rec) (context rec)); simpl; repeat split.
Qed.

Lemma reconciled_carries (tr : list entry) (rec : candidate) :
  wellFormed tr -> textualContext (context rec) -> carriesMatch tr rec (reconciled tr rec).
Proof.
  intros Hwf [lc Hlc].
  destruct (findRestaurantTimestamp_scored tr (name rec) (context rec) lc Hwf Hlc)
    as (r & Hr & Hscored).
  exists lc, r. unfold reconciled. rewrite Hr. simpl. repeat split; auto.
  intros Hlow. destruct r as [t|]; [|reflexivity].
  destruct Hscored as (k & e & Hnth & _ & H2 & _).
  assert (k < length tr)%nat as Hk by (apply nth_error_Some; congruence).
  specialize (Hlow k Hk). lia.
Qed.

(** C10: with a transcript that is not empty and whose entries all have
    a text, and candidates whose context is a string or is missing,
    every candidate comes back with all its fields but [mentionedAt] as
    they were and with [mentionedAt] set to its own match; a candidate
    none of whose windows scores 2 comes back with [mentionedAt] null,
    whatever the extractor had put there. *)
Theorem enhance_rewrites_mentionedAt (tr : list entry) (recs : list candidate) :
  tr <> [] ->
  wellFormed tr ->
  Forall (fun rec => textualContext (context rec)) recs ->
  exists out,
    enhanceRecommendationsWithTimestamps (Ok tr) recs = Ok out
    /\ Forall2 (fun rec rec' => sameButMentionedAt rec rec' /\ carriesMatch tr rec rec')
               recs out.
Proof.
  intros Hne Hwf Hctx. exists (map (reconciled tr) recs). split.
  - unfold enhanceRecommendationsWithTimestamps. simpl.
    destruct tr as [|e tr']; [congruence|]. simpl.
    rewrite (mapM_total (enhanceOne (e :: tr')) (reconciled (e :: tr')) recs); [reflexivity|].
    eapply List.Forall_impl; [|exact Hctx].
    intros rec [lc Hlc].
    destruct (findRestaurantTimestamp_scored (e :: tr') (name rec) (context rec) lc Hwf Hlc)
      as (r & Hr & _).
    eapply enhanceOne_reconciled; eauto.
  - induction Hctx as [|rec recs' Hrec _ IH]; simpl; constructor; auto.
    split; [apply reconciled_frame | now apply reconciled_carries].
Qed.

Lemma enhance_rewrites_mentionedAt_witness :
  tour <> []
  /\ wellFormed tour
  /\ Forall (fun rec => textualContext (context rec)) [pastaHouse; sushiBar]
  /\ exists out,
      enhanceRecommendationsWithTimestamps (Ok tour) [pastaHouse; sushiBar] = Ok out
      /\ Forall2 (fun rec rec' => sameButMentionedAt rec rec' /\ carriesMatch tour rec rec')
                 [pastaHouse; sushiBar] out.
Proof.
  assert (wellFormed tour) as Hwf
      by (unfold wellFormed, tour; repeat constructor; discriminate).
  assert (Forall (fun rec => textualContext (context rec)) [pastaHouse; sushiBar]) as Hctx
      by (repeat constructor; eexists; reflexivity).
  split; [discriminate|]. split; [exact Hwf|]. split; [exact Hctx|].
  apply (enhance_rewrites_mentionedAt tour [pastaHouse; sushiBar]).
  - discriminate.
  - exact Hwf.
  - exact Hctx.
Defined.

(** The extractor's time of [sushiBar] is replaced by null. *)
Example sushiBar_loses_its_time :
  enhanceRecommendationsWithTimestamps (Ok tour) [pastaHouse; sushiBar]
  = Ok [ {| name := "Pasta House"; location := JStr "Rome"; address := JNull;
            cuisineType := JStr "Italian"; dishMentioned := JStr "carbonara";
            context := JStr "great noodles tonight"; confidenceScore := JNum (9 # 10);
            priceRange := JStr "$$"; mentionedAt := JNum 1 |};
         {| name := "Sushi Bar"; location := JStr "Rome"; address := JNull;
            cuisineType := JStr "Japanese"; dishMentioned := JNull;
            context := JStr "fresh nigiri"; confidenceScore := JNum (9 # 10);
            priceRange := JNull; mentionedAt := JNull |} ].
Proof. reflexivity. Qed.

End Reconciliation.

(** ** The store *)

Section Store.

Import SupabaseService.

Variable db : database.

Lemma abind_eq {A B} (c : action A) (k : A -> action B) (s : store) :
  abind c k s = match c s with
                | (Ok a, s') => k a s'
                | (Throw m, s') => (Throw m, s')
                end.
Proof. reflexivity. Qed.

Lemma acatch_eq {A} (c : action A) (h : string -> action A) (s : store) :
  acatch c h s = match c s with
                 | (Ok a, s') => (Ok a, s')
                 | (Throw m, s') => h m s'
                 end.
Proof. reflexivity. Qed.

Lemma updateVideo_Throw (k : string) (u : videoUpdates) (s s' : store) (m : string) :
  updateVideo db k u s = (Throw m, s') -> s' = s.
Proof.
  unfold updateVideo.
  destruct (rejects db (UpdateVideo k u)); [intros H; now injection H|].
  destruct (videos s !! k); [discriminate|]. intros H; now injection H.
Qed.

Lemma updateVideo_Ok (k : string) (u : videoUpdates) (s s' : store) (v' : video) :
  updateVideo db k u s = (Ok v', s') ->
  exists v, videos s !! k = Some v
            /\ v' = applyUpdates u v
            /\ videos s' = <[k := v']> (videos s)
            /\ restaurants s' = restaurants s
            /\ recommendations s' = recommendations s.
Proof.
  unfold updateVideo.
  destruct (rejects db (UpdateVideo k u)); [discriminate|].
  destruct (videos s !! k) as [v|] eqn:E; [|discriminate].
  intros H. injection H as <- <-. exists v. auto.
Qed.

Lemma updateVideo_accepted (k : string) (u : videoUpdates) (s : store) (v : video) :
  rejects db (UpdateVideo k u) = None ->
  videos s !! k = Some v ->
  updateVideo db k u s
  = (Ok (applyUpdates u v),
     {| videos := <[k := applyUpdates u v]> (videos s);
        restaurants := restaurants s;
        recommendations := recommendations s |}).
Proof. intros Hr Hv. unfold updateVideo. rewrite Hr, Hv. reflexivity. Qed.

(** The flags after a write that was accepted. *)
Lemma flagsAt_updated (k : string) (u : videoUpdates) (s s' : store) (v' : video) (k' : string) :
  updateVideo db k u s = (Ok v', s') ->
  flagsAt s' k' = if decide (k = k') then Some (flags v') else flagsAt s k'.
Proof.
  intros H. apply updateVideo_Ok in H as (v & _ & _ & Hv & _).
  unfold flagsAt. rewrite Hv, lookup_insert.
  destruct (decide (k = k')); reflexivity.
Qed.

Lemma flags_transcriptUpdate (t : string) (v : video) :
  flags (applyUpdates (Processing.transcriptUpdate t) v) = flags v.
Proof. reflexivity. Qed.

Lemma flags_markProcessed (v : video) :
  flags (applyUpdates Processing.markProcessed v) = (true, None).
Proof. reflexivity. Qed.

Lemma flags_markFailed (m : string) (v : video) :
  flags (applyUpdates (Processing.markFailed m) v) = (false, Some m).
Proof. reflexivity. Qed.

Lemma flags_clearError (v : video) :
  flags (applyUpdates Processing.clearError v) = (processed v, None).
Proof. reflexivity. Qed.

Lemma flags_recordError (m : string) (v : video) :
  flags (applyUpdates (Processing.recordError m) v) = (processed v, Some m).
Proof. reflexivity. Qed.

Lemma videosConsistent_flagsAt (s : store) :
  videosConsistent s <-> forall k e, flagsAt s k = Some (true, e) -> e = None.
Proof.
  unfold videosConsistent, flagsConsistent, flagsAt, flags. split.
  - intros H k e Hk.
    destruct (videos s !! k) as [v|] eqn:E; [|discriminate].
    simpl in Hk. injection Hk as Hp <-. eauto.
  - intros H k v Hv Hp. apply (H k). rewrite Hv. simpl. now rewrite Hp.
Qed.

Lemma videosConsistent_same_flags (s s' : store) :
  (forall k, flagsAt s' k = flagsAt s k) -> videosConsistent s -> videosConsistent s'.
Proof.
  rewrite !videosConsistent_flagsAt. intros Hsame H k e Hk.
  apply (H k). now rewrite <- Hsame.
Qed.

Lemma findRestaurantByName_store (n : string) (c : jsval) (s : store) :
  snd (findRestaurantByName db n c s) = s.
Proof. unfold findRestaurantByName. destruct (rejects db _); reflexivity. Qed.

Lemma createRestaurant_videos (d : restaurantData) (s : store) :
  videos (snd (createRestaurant db d s)) = videos s.
Proof. unfold createRestaurant. destruct (rejects db _); reflexivity. Qed.

Lemma createRecommendation_videos (d : recommendationData) (s : store) :
  videos (snd (createRecommendation db d s)) = videos s.
Proof.
  unfold createRecommendation. destruct (rejects db _); [reflexivity|].
  destruct (existsb _ _); reflexivity.
Qed.

End Store.

(** ** The orchestrator *)

Section Orchestrator.

Import AIService SupabaseService Processing.

Variable svc : services.

Lemma persistCandidate_videos (v : video) (rec : candidate) (s : store) :
  videos (snd (persistCandidate svc v rec s)) = videos s.
Proof.
  unfold persistCandidate. rewrite abind_eq.
  pose proof (findRestaurantByName_store (db svc) (name rec) (location rec) s) as Hf.
  destruct (findRestaurantByName _ _ _ s) as [[found|m] s1]; simpl in Hf; subst s1;
    [|reflexivity].
  rewrite abind_eq.
  match goal with
  | |- context [match ?c s with _ => _ end] =>
      assert (videos (snd (c s)) = videos s) as Hc;
      [ destruct found; [apply createRestaurant_videos | reflexivity] |];
      destruct (c s) as [[r|m] s2]
  end; simpl in Hc; [|exact Hc].
  rewrite abind_eq.
  match goal with
  | |- context [createRecommendation ?d ?x s2] =>
      pose proof (createRecommendation_videos d x s2) as Hr;
      destruct (createRecommendation d x s2) as [[record|m] s3]
  end; simpl in Hr; simpl; congruence.
Qed.

(** A candidate whose turn throws adds nothing; one whose turn succeeds
    adds its record. *)
Lemma persistTurn_skips (v : video) (done : list processedRecommendation)
      (rec : candidate) (s s' : store) (m : string) :
  persistCandidate svc v rec s = (Throw m, s') ->
  persistTurn svc v done rec s = (Ok done, s').
Proof. intros H. unfold persistTurn. rewrite acatch_eq, abind_eq, H. reflexivity. Qed.

Lemma persistTurn_adds (v : video) (done : list processedRecommendation)
      (rec : candidate) (s s' : store) (p : processedRecommendation) :
  persistCandidate svc v rec s = (Ok p, s') ->
  persistTurn svc v done rec s = (Ok (done ++ [p]), s').
Proof. intros H. unfold persistTurn. rewrite acatch_eq, abind_eq, H. reflexivity. Qed.

Lemma persistTurn_total (v : video) (done : list processedRecommendation)
      (rec : candidate) (s : store) :
  exists done' s',
    persistTurn svc v done rec s = (Ok done', s')
    /\ videos s' = videos s
    /\ (length done' <= S (length done))%nat.
Proof.
  pose proof (persistCandidate_videos v rec s) as Hv.
  destruct (persistCandidate svc v rec s) as [[p|m] s'] eqn:E; simpl in Hv.
  - exists (done ++ [p]), s'. rewrite (persistTurn_adds _ _ _ _ _ _ E).
    repeat split; auto. rewrite length_app. simpl. lia.
  - exists done, s'. rewrite (persistTurn_skips _ _ _ _ _ _ E).
    repeat split; auto.
Qed.

(** The loop runs to its end whatever happens to the candidates, and
    leaves the [videos] table as it was. *)
Lemma persistAll_total (v : video) (recs : list candidate)
      (done : list processedRecommendation) (s : store) :
  exists done' s',
    persistAll svc v recs done s = (Ok done', s')
    /\ videos s' = videos s
    /\ (length done' <= length done + length recs)%nat.
Proof.
  revert done s. induction recs as [|rec rest IH]; intros done s; simpl.
  - exists done, s. repeat split; auto. lia.
  - rewrite abind_eq.
    destruct (persistTurn_total v done rec s) as (d1 & s1 & -> & Hv1 & Hl1).
    destruct (IH d1 s1) as (d2 & s2 & -> & Hv2 & Hl2).
    exists d2, s2. repeat split; [congruence | lia].
Qed.

Lemma persistAll_app (v : video) (pre post : list candidate)
      (done : list processedRecommendation) (s : store) :
  persistAll svc v (pre ++ post) done s
  = abind (persistAll svc v pre done) (persistAll svc v post) s.
Proof.
  revert done s. induction pre as [|rec pre IH]; intros done s; simpl; [reflexivity|].
  rewrite !abind_eq. destruct (persistTurn svc v done rec s) as [[d1|m] s1]; [|reflexivity].
  rewrite IH. reflexivity.
Qed.

(** C3: in the persistence step a candidate whose resolution or record
    throws is skipped and the candidates after it are still run; the
    loop never throws, and once it is over the video is written as
    processed with its error cleared, whatever number of candidates was
    persisted. *)
Theorem persistence_skips_failures_and_marks_processed
        (v : video) (recs : list candidate) (s : store) (row : video) :
  videos s !! video_id v = Some row ->
  rejects (db svc) (UpdateVideo (video_id v) markProcessed) = None ->
  (forall pre rec post done0 s0 done1 s1 m s2,
      persistAll svc v pre done0 s0 = (Ok done1, s1) ->
      persistCandidate svc v rec s1 = (Throw m, s2) ->
      persistAll svc v (pre ++ rec :: post) done0 s0 = persistAll svc v post done1 s2)
  /\ exists done s1 s2,
      persistAll svc v recs [] s = (Ok done, s1)
      /\ persistAndMark svc v recs s
         = (Ok {| result_recommendations := done;
                  extracted_count := length recs;
                  processed_count := length done |}, s2)
      /\ (length done <= length recs)%nat
      /\ flagsAt s2 (video_id v) = Some (true, None)
      /\ restaurants s2 = restaurants s1
      /\ recommendations s2 = recommendations s1.
Proof.
  intros Hrow Hacc. split.
  - intros pre rec post done0 s0 done1 s1 m s2 Hpre Hrec.
    rewrite persistAll_app, abind_eq, Hpre. simpl.
    rewrite abind_eq, (persistTurn_skips _ _ _ _ _ _ Hrec). reflexivity.
  - destruct (persistAll_total v recs [] s) as (done & s1 & Hloop & Hv & Hlen).
    rewrite <- Hv in Hrow.
    exists done, s1. eexists. unfold persistAndMark.
    rewrite abind_eq, Hloop, abind_eq, (updateVideo_accepted _ _ _ _ _ Hacc Hrow).
    repeat split; auto.
    unfold flagsAt. simpl. rewrite lookup_insert_eq. reflexivity.
Qed.

End Orchestrator.

Section OrchestratorExamples.

Import AIService SupabaseService Processing.

Lemma persistence_skips_failures_and_marks_processed_witness :
  videos shelf !! video_id romeTour = Some romeTour
  /\ rejects (db noLinks) (UpdateVideo (video_id romeTour) markProcessed) = None
  /\ exists done s1 s2,
    persistAll noLinks romeTour [pastaHouse; sushiBar] [] shelf = (Ok done, s1)
    /\ persistAndMark noLinks romeTour [pastaHouse; sushiBar] shelf
       = (Ok {| result_recommendations := done;
                extracted_count := length [pastaHouse; sushiBar];
                processed_count := length done |}, s2)
    /\ (length done <= length [pastaHouse; sushiBar])%nat
    /\ flagsAt s2 (video_id romeTour) = Some (true, None)
    /\ restaurants s2 = restaurants s1
    /\ recommendations s2 = recommendations s1.
Proof.
  split; [reflexivity|]. split; [reflexivity|].
  apply (persistence_skips_failures_and_marks_processed
           noLinks romeTour [pastaHouse; sushiBar] shelf romeTour).
  - reflexivity.
  - reflexivity.
Defined.

End OrchestratorExamples.

(** ** The processing flags through the routes *)

Section Flags.

Import AIService SupabaseService Processing.

Variable svc : services.

Lemma consistent_step (k : string) (s s' : store) :
  videosConsistent s ->
  (forall k', k' <> k -> flagsAt s' k' = flagsAt s k') ->
  settled (flagsAt s' k) ->
  videosConsistent s'.
Proof.
  rewrite !videosConsistent_flagsAt. intros Hs Hother Hk k' e He.
  destruct (decide (k' = k)) as [->|Hne]; [now apply Hk|].
  rewrite (Hother k' Hne) in He. eauto.
Qed.

Lemma consistent_settled (s : store) (k : string) :
  videosConsistent s -> settled (flagsAt s k).
Proof. rewrite videosConsistent_flagsAt. intros H e He. eauto. Qed.

(** A write of the transcript leaves every flag as it was. *)
Lemma transcript_written (k t : string) (s s' : store) (r : result video) :
  updateVideo (db svc) k (transcriptUpdate t) s = (r, s') ->
  forall k', flagsAt s' k' = flagsAt s k'.
Proof.
  intros H k'. destruct r as [v'|m].
  - rewrite (flagsAt_updated _ _ _ _ _ _ k' H).
    destruct (decide (k = k')) as [<-|]; [|reflexivity].
    apply updateVideo_Ok in H as (v & Hv & -> & _).
    unfold flagsAt. rewrite Hv. reflexivity.
  - apply updateVideo_Throw in H. now subst.
Qed.

Lemma acquireTranscript_total (v : video) (s : store) :
  exists t s', acquireTranscript svc v s = (Ok t, s')
               /\ forall k, flagsAt s' k = flagsAt s k.
Proof.
  unfold acquireTranscript.
  set (fetchAndStore := acatch _ _).
  assert (exists t s', fetchAndStore s = (Ok t, s')
                       /\ forall k, flagsAt s' k = flagsAt s k) as Hfetch.
  { unfold fetchAndStore. rewrite acatch_eq, abind_eq. unfold lift.
    destruct (YouTubeService.getVideoTranscript _ _) as [t|m].
    - rewrite abind_eq.
      destruct (updateVideo (db svc) (video_id v) (transcriptUpdate t) s)
        as [[v'|m] s'] eqn:E;
        pose proof (transcript_written _ _ _ _ _ E) as Hf; eexists; eexists;
        (split; [reflexivity|exact Hf]).
    - eexists; eexists; split; [reflexivity|auto]. }
  destruct (transcript v) as [t|]; [|exact Hfetch].
  destruct (String.eqb t ""); [exact Hfetch|].
  exists t, s. split; [reflexivity|auto].
Qed.

(** What a run of [processVideoRecommendations] does to the flags: on
    success the video is processed without error and no other row is
    touched; when it throws no flag has changed. *)
Lemma process_outcome (v : video) (s : store) :
  match processVideoRecommendations svc v s with
  | (Ok _, s') =>
      flagsAt s' (video_id v) = Some (true, None)
      /\ forall k, k <> video_id v -> flagsAt s' k = flagsAt s k
  | (Throw _, s') => forall k, flagsAt s' k = flagsAt s k
  end.
Proof.
  unfold processVideoRecommendations. rewrite abind_eq.
  destruct (acquireTranscript_total v s) as (t & s1 & -> & Hf1).
  destruct (isBlank (if isBlank t then descriptionOrEmpty v else t)); [exact Hf1|].
  rewrite abind_eq. unfold lift at 1.
  destruct (extractRestaurantRecommendations _ _) as [recs|m]; [|exact Hf1].
  rewrite abind_eq. unfold lift at 1.
  destruct (TimestampService.enhanceRecommendationsWithTimestamps _ recs) as [recs'|m];
    [|exact Hf1].
  unfold persistAndMark. rewrite abind_eq.
  destruct (persistAll_total svc v recs' [] s1) as (done & s2 & -> & Hv2 & _).
  assert (forall k, flagsAt s2 k = flagsAt s k) as Hf2
      by (intros k; unfold flagsAt; rewrite Hv2; apply Hf1).
  rewrite abind_eq.
  destruct (updateVideo (db svc) (video_id v) markProcessed s2) as [[v'|m] s3] eqn:E.
  - simpl. split.
    + rewrite (flagsAt_updated _ _ _ _ _ _ (video_id v) E).
      destruct (decide (video_id v = video_id v)) as [_|]; [|congruence].
      apply updateVideo_Ok in E as (v0 & _ & -> & _). reflexivity.
    + intros k Hk. rewrite (flagsAt_updated _ _ _ _ _ _ k E).
      destruct (decide (video_id v = k)); [congruence|auto].
  - apply updateVideo_Throw in E. subst s3. exact Hf2.
Qed.

Lemma process_consistent (v : video) (s : store) :
  videosConsistent s -> videosConsistent (snd (processVideoRecommendations svc v s)).
Proof.
  intros Hs. pose proof (process_outcome v s) as H.
  destruct (processVideoRecommendations svc v s) as [[r|m] s']; simpl.
  - destruct H as [Hk Hother].
    apply (consistent_step (video_id v) s s' Hs Hother).
    rewrite Hk. intros e He. now injection He.
  - now apply (videosConsistent_same_flags s s').
Qed.

(** A write of [markFailed] keeps the invariant. *)
Lemma markFailed_consistent (k m : string) (s : store) :
  videosConsistent s ->
  videosConsistent (snd (updateVideo (db svc) k (markFailed m) s)).
Proof.
  intros Hs.
  destruct (updateVideo (db svc) k (markFailed m) s) as [[v'|m'] s'] eqn:E; simpl.
  - apply (consistent_step k s s' Hs).
    + intros k' Hne. rewrite (flagsAt_updated _ _ _ _ _ _ k' E).
      destruct (decide (k = k')); [congruence|reflexivity].
    + rewrite (flagsAt_updated _ _ _ _ _ _ k E).
      destruct (decide (k = k)) as [_|]; [|congruence].
      apply updateVideo_Ok in E as (v0 & _ & -> & _).
      intros err He. discriminate He.
  - apply updateVideo_Throw in E. now subst.
Qed.

Lemma processVideoRoute_consistent (videoId : string) (s : store) :
  videosConsistent s -> videosConsistent (snd (processVideoRoute svc videoId s)).
Proof.
  intros Hs. unfold processVideoRoute. rewrite abind_eq. unfold getVideo.
  destruct (rejects (db svc) (GetVideo videoId)) as [m|].
  { pose proof (markFailed_consistent videoId ("Failed to get video: " +:+ m) s Hs) as H.
    destruct (updateVideo _ _ _ s) as [r s']. exact H. }
  destruct (videos s !! videoId) as [v|]; [|exact Hs].
  destruct (processed v); [exact Hs|].
  rewrite abind_eq.
  pose proof (process_consistent v s Hs) as Hp.
  destruct (processVideoRecommendations svc v s) as [[r|m] s']; simpl in Hp; [exact Hp|].
  pose proof (markFailed_consistent videoId m s' Hp) as H.
  destruct (updateVideo _ _ _ s') as [r s'']. exact H.
Qed.

Lemma batchLoop_consistent (vs : list video) (results : batchResults) (s : store) :
  videosConsistent s -> videosConsistent (snd (batchLoop svc vs results s)).
Proof.
  revert results s. induction vs as [|v rest IH]; intros results s Hs; simpl; [exact Hs|].
  rewrite abind_eq. unfold batchTurn. rewrite acatch_eq, abind_eq.
  pose proof (process_consistent v s Hs) as Hp.
  destruct (processVideoRecommendations svc v s) as [[r|m] s']; simpl in Hp.
  - apply IH, Hp.
  - rewrite abind_eq.
    pose proof (markFailed_consistent (video_id v) m s' Hp) as H.
    destruct (updateVideo _ _ _ s') as [[v'|m'] s'']; simpl in H; [apply IH, H | exact H].
Qed.

Lemma finish_consistent (c : action response) (s : store) :
  videosConsistent (snd (c s)) -> videosConsistent (snd (finish c s)).
Proof. unfold finish. destruct (c s) as [[r|m] s']; auto. Qed.

Lemma batchRoute_consistent (limit : nat) (s : store) :
  videosConsistent s -> videosConsistent (snd (batchRoute svc limit s)).
Proof.
  intros Hs. unfold batchRoute. apply finish_consistent.
  rewrite abind_eq. unfold getUnprocessedVideos.
  destruct (rejects (db svc) (GetUnprocessedVideos limit)); [exact Hs|].
  destruct (List.filter longEnough _) as [|v vs]; [exact Hs|].
  rewrite abind_eq.
  match goal with
  | |- context [batchLoop svc ?l ?r s] =>
      pose proof (batchLoop_consistent l r s Hs) as H;
      destruct (batchLoop svc l r s) as [[res|m] s']
  end; exact H.
Qed.

Lemma createVideo_consistent (d : newVideo) (s : store) :
  videosConsistent s -> videosConsistent (snd (createVideo (db svc) d s)).
Proof.
  intros Hs. unfold createVideo.
  destruct (rejects (db svc) (CreateVideo d)); [exact Hs|].
  destruct (videos s !! nv_videoId d) eqn:E; [exact Hs|]. simpl.
  intros k v Hv. simpl in Hv. rewrite lookup_insert in Hv.
  destruct (decide (nv_videoId d = k)).
  - injection Hv as <-. intros Hp. discriminate Hp.
  - eapply Hs; eauto.
Qed.

Lemma addAndProcessRoute_consistent (videoUrl : option string) (s : store) :
  videosConsistent s -> videosConsistent (snd (addAndProcessRoute svc videoUrl s)).
Proof.
  intros Hs. unfold addAndProcessRoute.
  destruct videoUrl as [url|]; [|exact Hs].
  destruct (String.eqb url ""); [exact Hs|].
  destruct (YouTubeService.extractVideoId url) as [videoId|]; [|exact Hs].
  apply finish_consistent. rewrite abind_eq. unfold getVideo.
  destruct (rejects (db svc) (GetVideo videoId)); [exact Hs|].
  destruct (videos s !! videoId); [exact Hs|].
  rewrite abind_eq. unfold lift at 1.
  destruct (getVideoDetails svc videoId) as [d|]; [|exact Hs].
  rewrite abind_eq. unfold lift at 1.
  destruct (getOrCreateInfluencer svc (channelId d)) as [i|]; [|exact Hs].
  rewrite abind_eq.
  pose proof (createVideo_consistent (details d) s Hs) as Hc.
  destruct (createVideo (db svc) (details d) s) as [[v|m] s1]; simpl in Hc; [|exact Hc].
  rewrite abind_eq.
  pose proof (process_consistent v s1 Hc) as Hp.
  destruct (processVideoRecommendations svc v s1) as [[r|m] s2]; exact Hp.
Qed.

(** The flags around a write that was accepted. *)
Lemma written_flags (k : string) (u : videoUpdates) (s s' : store) (v' : video) :
  updateVideo (db svc) k u s = (Ok v', s') ->
  exists v0, flagsAt s k = Some (flags v0)
             /\ flagsAt s' k = Some (flags (applyUpdates u v0))
             /\ forall k', k' <> k -> flagsAt s' k' = flagsAt s k'.
Proof.
  intros H. pose proof (flagsAt_updated _ _ _ _ _ _ k H) as Hk.
  assert (forall k', k' <> k -> flagsAt s' k' = flagsAt s k') as Hother.
  { intros k' Hne. rewrite (flagsAt_updated _ _ _ _ _ _ k' H).
    destruct (decide (k = k')); [congruence|reflexivity]. }
  apply updateVideo_Ok in H as (v0 & Hv0 & -> & _).
  exists v0. repeat split; auto.
  - unfold flagsAt. rewrite Hv0. reflexivity.
  - rewrite Hk. destruct (decide (k = k)); [reflexivity|congruence].
Qed.

(** Recording an error on a video that is not processed keeps the
    invariant. *)
Lemma recordError_turn (k m : string) (s : store) :
  videosConsistent s ->
  (forall p err, flagsAt s k = Some (p, err) -> p = false) ->
  videosConsistent (snd (updateVideo (db svc) k (recordError m) s))
  /\ forall k', k' <> k ->
                flagsAt (snd (updateVideo (db svc) k (recordError m) s)) k' = flagsAt s k'.
Proof.
  intros Hs Hp.
  destruct (updateVideo (db svc) k (recordError m) s) as [[v'|m'] s'] eqn:E; simpl.
  - destruct (written_flags _ _ _ _ _ E) as (v0 & H0 & H1 & Hother).
    split; [|exact Hother].
    apply (consistent_step k s s' Hs Hother).
    rewrite H1, flags_recordError.
    rewrite (Hp (processed v0) (processing_error v0) H0).
    intros err He. discriminate He.
  - apply updateVideo_Throw in E. subst s'. auto.
Qed.

Lemma reprocessTurn_flags (results : reprocessResults) (v : video) (s : store) :
  videosConsistent s ->
  (forall p err, flagsAt s (video_id v) = Some (p, err) -> p = false) ->
  videosConsistent (snd (reprocessTurn svc results v s))
  /\ forall k, k <> video_id v ->
               flagsAt (snd (reprocessTurn svc results v s)) k = flagsAt s k.
Proof.
  intros Hs Hp. unfold reprocessTurn. rewrite acatch_eq, abind_eq.
  destruct (updateVideo (db svc) (video_id v) clearError s) as [[v1|m1] s1] eqn:E1.
  - destruct (written_flags _ _ _ _ _ E1) as (v0 & H0 & H1 & Hother1).
    rewrite flags_clearError, (Hp (processed v0) (processing_error v0) H0) in H1.
    assert (videosConsistent s1) as Hs1.
    { apply (consistent_step (video_id v) s s1 Hs Hother1).
      rewrite H1. intros err He. now injection He. }
    rewrite abind_eq.
    pose proof (process_outcome v s1) as Hout.
    destruct (processVideoRecommendations svc v s1) as [[r|m2] s2].
    + destruct Hout as [Hk Hother2]. simpl. split.
      * apply (consistent_step (video_id v) s1 s2 Hs1 Hother2).
        rewrite Hk. intros err He. now injection He.
      * intros k Hne. rewrite Hother2, Hother1; auto.
    + assert (videosConsistent s2) as Hs2
          by (apply (videosConsistent_same_flags s1 s2 Hout Hs1)).
      rewrite abind_eq.
      destruct (recordError_turn (video_id v) m2 s2 Hs2) as [Hc Ho].
      { intros p err. rewrite Hout, H1. intros He. now injection He. }
      destruct (updateVideo (db svc) (video_id v) (recordError m2) s2) as [[v3|m3] s3];
        simpl in *; (split; [exact Hc|]);
        intros k Hne; rewrite Ho, Hout, Hother1; auto.
  - apply updateVideo_Throw in E1. subst s1.
    rewrite abind_eq.
    destruct (recordError_turn (video_id v) m1 s Hs Hp) as [Hc Ho].
    destruct (updateVideo (db svc) (video_id v) (recordError m1) s) as [[v3|m3] s3];
      simpl in *; split; auto.
Qed.

Lemma reprocessLoop_consistent (vs : list video) :
  NoDup (map video_id vs) ->
  forall (results : reprocessResults) (s : store),
    videosConsistent s -> pending s vs ->
    videosConsistent (snd (reprocessLoop svc vs results s)).
Proof.
  induction vs as [|v rest IH]; intros Hnd results s Hs Hpend; simpl; [exact Hs|].
  inversion Hnd as [|x l Hnotin Hnd']; subst.
  rewrite abind_eq.
  destruct (reprocessTurn_flags results v s Hs) as [Hc Ho].
  { intros p err. apply Hpend. now left. }
  destruct (reprocessTurn svc results v s) as [[res|m] s1]; simpl in *; [|exact Hc].
  apply IH; auto.
  intros w Hw p err. rewrite Ho.
  - apply Hpend. now right.
  - intros E. apply Hnotin. rewrite <- E. apply list_elem_of_In, in_map_iff. eauto.
Qed.

Lemma In_firstn {A} (n : nat) (l : list A) (x : A) : In x (firstn n l) -> In x l.
Proof.
  revert n. induction l as [|y l IH]; intros [|n]; simpl; try tauto.
  intros [->|H]; eauto.
Qed.

Lemma NoDup_map_filter {A B} (f : A -> B) (p : A -> bool) (l : list A) :
  NoDup (map f l) -> NoDup (map f (List.filter p l)).
Proof.
  induction l as [|x l IH]; simpl; intros H; [constructor|].
  inversion H as [|y l' Hnotin Hnd]; subst.
  destruct (p x); simpl; auto.
  constructor; auto.
  intros Hin. apply Hnotin.
  apply list_elem_of_In, in_map_iff in Hin as (z & Hz & Hin).
  apply filter_In in Hin as [Hin _].
  apply list_elem_of_In, in_map_iff. eauto.
Qed.

Lemma NoDup_map_firstn {A B} (f : A -> B) (n : nat) (l : list A) :
  NoDup (map f l) -> NoDup (map f (firstn n l)).
Proof.
  revert n. induction l as [|x l IH]; intros [|n]; simpl; intros H; try constructor.
  - inversion H as [|y l' Hnotin Hnd]; subst.
    intros Hin. apply Hnotin.
    apply list_elem_of_In, in_map_iff in Hin as (z & Hz & Hin). apply In_firstn in Hin.
    apply list_elem_of_In, in_map_iff. eauto.
  - inversion H; subst. auto.
Qed.

Lemma In_allVideos (s : store) (v : video) :
  In v (allVideos s) <-> exists k, videos s !! k = Some v.
Proof.
  unfold allVideos. rewrite in_map_iff. split.
  - intros ([k v'] & <- & Hin). exists k.
    apply list_elem_of_In, elem_of_map_to_list in Hin. exact Hin.
  - intros [k Hk]. exists (k, v). split; [reflexivity|].
    apply list_elem_of_In, elem_of_map_to_list. exact Hk.
Qed.

Lemma allVideos_ids (s : store) :
  keyed s -> map video_id (allVideos s) = map fst (map_to_list (videos s)).
Proof.
  intros Hkey. unfold allVideos. rewrite map_map.
  apply map_ext_in. intros [k v] Hin. simpl.
  apply Hkey. apply elem_of_map_to_list, list_elem_of_In. exact Hin.
Qed.

Lemma allVideos_NoDup (s : store) : keyed s -> NoDup (map video_id (allVideos s)).
Proof.
  intros Hkey. rewrite (allVideos_ids s Hkey).
  pose proof (NoDup_fst_map_to_list (videos s)) as H.
  exact H.
Qed.

Lemma selectFailedVideos_pending (limit : nat) (s : store) :
  keyed s -> pending s (selectFailedVideos limit s).
Proof.
  intros Hkey v Hin p err Hf.
  unfold selectFailedVideos in Hin. apply In_firstn, filter_In in Hin as [Hin Hkeep].
  apply In_allVideos in Hin as [k Hk].
  rewrite <- (Hkey k v Hk) in Hk.
  unfold flagsAt in Hf. rewrite Hk in Hf. simpl in Hf. injection Hf as <- _.
  apply andb_true_iff in Hkeep as [Hkeep _]. now apply negb_true_iff.
Qed.

Lemma reprocessFailedRoute_consistent (limit : nat) (s : store) :
  keyed s -> videosConsistent s ->
  videosConsistent (snd (reprocessFailedRoute svc limit s)).
Proof.
  intros Hkey Hs. unfold reprocessFailedRoute.
  destruct (rejects (db svc) (SelectFailedVideos limit)); [exact Hs|].
  pose proof (selectFailedVideos_pending limit s Hkey) as Hpend.
  assert (NoDup (map video_id (selectFailedVideos limit s))) as Hnd.
  { unfold selectFailedVideos.
    apply NoDup_map_firstn, NoDup_map_filter, allVideos_NoDup, Hkey. }
  destruct (selectFailedVideos limit s) as [|v vs]; [exact Hs|].
  apply finish_consistent. rewrite abind_eq.
  match goal with
  | |- context [reprocessLoop svc ?l ?r s] =>
      pose proof (reprocessLoop_consistent l Hnd r s Hs Hpend) as H;
      destruct (reprocessLoop svc l r s) as [[res|m] s']
  end; exact H.
Qed.

End Flags.

(** ** The key of the [videos] table through the routes *)

Section Keys.

Import AIService SupabaseService Processing.

Variable svc : services.

Lemma keepsKeyed_ret {A} (a : A) : keepsKeyed (ret a).
Proof. intros s H. exact H. Qed.

Lemma keepsKeyed_throw {A} (m : string) : keepsKeyed (@throw A m).
Proof. intros s H. exact H. Qed.

Lemma keepsKeyed_lift {A} (r : result A) : keepsKeyed (lift r).
Proof. intros s H. exact H. Qed.

Lemma keepsKeyed_abind {A B} (c : action A) (k : A -> action B) :
  keepsKeyed c -> (forall a, keepsKeyed (k a)) -> keepsKeyed (abind c k).
Proof.
  intros Hc Hk s Hs. rewrite abind_eq. specialize (Hc s Hs).
  destruct (c s) as [[a|m] s']; simpl in Hc; [apply Hk, Hc | exact Hc].
Qed.

Lemma keepsKeyed_acatch {A} (c : action A) (h : string -> action A) :
  keepsKeyed c -> (forall m, keepsKeyed (h m)) -> keepsKeyed (acatch c h).
Proof.
  intros Hc Hh s Hs. rewrite acatch_eq. specialize (Hc s Hs).
  destruct (c s) as [[a|m] s']; simpl in Hc; [exact Hc | apply Hh, Hc].
Qed.

Lemma keepsKeyed_same_videos {A} (c : action A) :
  (forall s, videos (snd (c s)) = videos s) -> keepsKeyed c.
Proof. intros H s Hs k v Hv. rewrite H in Hv. eauto. Qed.

Lemma keepsKeyed_updateVideo (k : string) (u : videoUpdates) :
  keepsKeyed (updateVideo (db svc) k u).
Proof.
  intros s Hs.
  destruct (updateVideo (db svc) k u s) as [[v'|m] s'] eqn:E; simpl.
  - apply updateVideo_Ok in E as (v & Hv & -> & Hvs & _).
    intros k' v' Hk'. rewrite Hvs, lookup_insert in Hk'.
    destruct (decide (k = k')) as [<-|]; [|eauto].
    injection Hk' as <-. simpl. eauto.
  - apply updateVideo_Throw in E. now subst.
Qed.

Lemma keepsKeyed_createVideo (d : newVideo) : keepsKeyed (createVideo (db svc) d).
Proof.
  intros s Hs. unfold createVideo.
  destruct (rejects (db svc) (CreateVideo d)); [exact Hs|].
  destruct (videos s !! nv_videoId d); [exact Hs|]. simpl.
  intros k v Hv. simpl in Hv. rewrite lookup_insert in Hv.
  destruct (decide (nv_videoId d = k)) as [<-|]; [|eauto].
  injection Hv as <-. reflexivity.
Qed.

Lemma keepsKeyed_getVideo (k : string) : keepsKeyed (getVideo (db svc) k).
Proof.
  apply keepsKeyed_same_videos. intros s. unfold getVideo.
  destruct (rejects (db svc) _); reflexivity.
Qed.

Lemma keepsKeyed_persistAll (v : video) (recs : list candidate)
      (done : list processedRecommendation) :
  keepsKeyed (persistAll svc v recs done).
Proof.
  apply keepsKeyed_same_videos. intros s.
  destruct (persistAll_total svc v recs done s) as (d & s' & -> & H & _). exact H.
Qed.

Lemma keepsKeyed_process (v : video) : keepsKeyed (processVideoRecommendations svc v).
Proof.
  unfold processVideoRecommendations. apply keepsKeyed_abind.
  - unfold acquireTranscript.
    assert (keepsKeyed
              (acatch
                 (abind (lift (YouTubeService.getVideoTranscript
                                 (fetchTranscript svc (video_id v))
                                 (rapidApi svc (video_id v))))
                        (fun t => abind (updateVideo (db svc) (video_id v) (transcriptUpdate t))
                                        (fun _ => ret t)))
                 (fun _ => ret (descriptionOrEmpty v)))) as H.
    { apply keepsKeyed_acatch; [|intros; apply keepsKeyed_ret].
      apply keepsKeyed_abind; [apply keepsKeyed_lift|].
      intros t. apply keepsKeyed_abind; [apply keepsKeyed_updateVideo|].
      intros; apply keepsKeyed_ret. }
    destruct (transcript v) as [t|]; [|exact H].
    destruct (String.eqb t ""); [exact H | apply keepsKeyed_ret].
  - intros t. destruct (isBlank (if isBlank t then descriptionOrEmpty v else t));
      [apply keepsKeyed_throw|].
    apply keepsKeyed_abind; [apply keepsKeyed_lift|]. intros recs.
    apply keepsKeyed_abind; [apply keepsKeyed_lift|]. intros recs'.
    unfold persistAndMark.
    apply keepsKeyed_abind; [apply keepsKeyed_persistAll|]. intros done.
    apply keepsKeyed_abind; [apply keepsKeyed_updateVideo|]. intros; apply keepsKeyed_ret.
Qed.

Lemma keepsKeyed_finish (c : action response) (s : store) :
  keepsKeyed c -> keyed s -> keyed (snd (finish c s)).
Proof.
  intros Hc Hs. unfold finish. specialize (Hc s Hs).
  destruct (c s) as [[r|m] s']; exact Hc.
Qed.

Lemma keyed_processVideoRoute (videoId : string) (s : store) :
  keyed s -> keyed (snd (processVideoRoute svc videoId s)).
Proof.
  intros Hs. unfold processVideoRoute.
  match goal with
  | |- context [abind ?c ?k s] =>
      assert (keepsKeyed (abind c k)) as Hc;
      [| specialize (Hc s Hs); destruct (abind c k s) as [[r|m] s']; simpl in Hc ]
  end.
  - apply keepsKeyed_abind; [apply keepsKeyed_getVideo|].
    intros [v|]; [|apply keepsKeyed_ret].
    destruct (processed v); [apply keepsKeyed_ret|].
    apply keepsKeyed_abind; [apply keepsKeyed_process | intros; apply keepsKeyed_ret].
  - exact Hc.
  - pose proof (keepsKeyed_updateVideo videoId (markFailed m) s' Hc) as H.
    destruct (updateVideo _ _ _ s') as [r s'']. exact H.
Qed.

Lemma keepsKeyed_batchLoop (vs : list video) (results : batchResults) :
  keepsKeyed (batchLoop svc vs results).
Proof.
  revert results. induction vs as [|v rest IH]; intros results; simpl;
    [apply keepsKeyed_ret|].
  apply keepsKeyed_abind; [|apply IH].
  apply keepsKeyed_acatch.
  - apply keepsKeyed_abind; [apply keepsKeyed_process | intros; apply keepsKeyed_ret].
  - intros m. apply keepsKeyed_abind; [apply keepsKeyed_updateVideo|].
    intros; apply keepsKeyed_ret.
Qed.

Lemma keyed_batchRoute (limit : nat) (s : store) :
  keyed s -> keyed (snd (batchRoute svc limit s)).
Proof.
  intros Hs. unfold batchRoute. apply keepsKeyed_finish; [|exact Hs].
  apply keepsKeyed_abind.
  - apply keepsKeyed_same_videos. intros s0. unfold getUnprocessedVideos.
    destruct (rejects (db svc) _); reflexivity.
  - intros [|v vs]; [apply keepsKeyed_ret|].
    apply keepsKeyed_abind; [apply keepsKeyed_batchLoop | intros; apply keepsKeyed_ret].
Qed.

Lemma keepsKeyed_reprocessLoop (vs : list video) (results : reprocessResults) :
  keepsKeyed (reprocessLoop svc vs results).
Proof.
  revert results. induction vs as [|v rest IH]; intros results; simpl;
    [apply keepsKeyed_ret|].
  apply keepsKeyed_abind; [|apply IH].
  apply keepsKeyed_acatch.
  - apply keepsKeyed_abind; [apply keepsKeyed_updateVideo|]. intros _.
    apply keepsKeyed_abind; [apply keepsKeyed_process | intros; apply keepsKeyed_ret].
  - intros m. apply keepsKeyed_abind; [apply keepsKeyed_updateVideo|].
    intros; apply keepsKeyed_ret.
Qed.

Lemma keyed_reprocessFailedRoute (limit : nat) (s : store) :
  keyed s -> keyed (snd (reprocessFailedRoute svc limit s)).
Proof.
  intros Hs. unfold reprocessFailedRoute.
  destruct (rejects (db svc) (SelectFailedVideos limit)); [exact Hs|].
  destruct (selectFailedVideos limit s) as [|v vs]; [exact Hs|].
  apply keepsKeyed_finish; [|exact Hs].
  apply keepsKeyed_abind; [apply keepsKeyed_reprocessLoop | intros; apply keepsKeyed_ret].
Qed.

Lemma keyed_addAndProcessRoute (videoUrl : option string) (s : store) :
  keyed s -> keyed (snd (addAndProcessRoute svc videoUrl s)).
Proof.
  intros Hs. unfold addAndProcessRoute.
  destruct videoUrl as [url|]; [|exact Hs].
  destruct (String.eqb url ""); [exact Hs|].
  destruct (YouTubeService.extractVideoId url) as [videoId|]; [|exact Hs].
  apply keepsKeyed_finish; [|exact Hs].
  apply keepsKeyed_abind; [apply keepsKeyed_getVideo|].
  intros [v|]; [apply keepsKeyed_ret|].
  apply keepsKeyed_abind; [apply keepsKeyed_lift|]. intros d.
  apply keepsKeyed_abind; [apply keepsKeyed_lift|]. intros i.
  apply keepsKeyed_abind; [apply keepsKeyed_createVideo|]. intros v.
  apply keepsKeyed_abind; [apply keepsKeyed_process | intros; apply keepsKeyed_ret].
Qed.

End Keys.

(** ** The routes *)

Section Routes.

Import AIService SupabaseService Processing.



(** C4: the four routes of the processing router keep the [videos]
    table keyed and keep, for every row, that a processed video has no
    processing error; the write of the success path gives the flags
    (true, null), and the write of a failure that sets the flag and the
    error gives (false, error). *)
Theorem routes_keep_flags_consistent (svc : services) (s : store) :
  keyed s ->
  videosConsistent s ->
  (forall videoId,
      keyed (snd (processVideoRoute svc videoId s))
      /\ videosConsistent (snd (processVideoRoute svc videoId s)))
  /\ (forall limit,
         keyed (snd (batchRoute svc limit s))
         /\ videosConsistent (snd (batchRoute svc limit s)))
  /\ (forall limit,
         keyed (snd (reprocessFailedRoute svc limit s))
         /\ videosConsistent (snd (reprocessFailedRoute svc limit s)))
  /\ (forall videoUrl,
         keyed (snd (addAndProcessRoute svc videoUrl s))
         /\ videosConsistent (snd (addAndProcessRoute svc videoUrl s)))
  /\ (forall row, flags (applyUpdates markProcessed row) = (true, None))
  /\ (forall message row,
         flags (applyUpdates (markFailed message) row) = (false, Some message)).
Proof.
  intros Hk Hs. repeat split.
  - now apply keyed_processVideoRoute.
  - now apply processVideoRoute_consistent.
  - now apply keyed_batchRoute.
  - now apply batchRoute_consistent.
  - now apply keyed_reprocessFailedRoute.
  - now apply reprocessFailedRoute_consistent.
  - now apply keyed_addAndProcessRoute.
  - now apply addAndProcessRoute_consistent.
Qed.

Lemma shelf_keyed : keyed shelf.
Proof.
  intros k v H. unfold shelf in H. simpl in H.
  rewrite lookup_insert in H. destruct (decide ("rome01" = k)) as [<-|].
  { injection H as <-. reflexivity. }
  rewrite lookup_insert in H. destruct (decide ("osaka7" = k)) as [<-|].
  { injection H as <-. reflexivity. }
  rewrite lookup_empty in H. discriminate.
Qed.

Lemma shelf_consistent : videosConsistent shelf.
Proof.
  intros k v H. unfold shelf in H. simpl in H.
  rewrite lookup_insert in H. destruct (decide ("rome01" = k)).
  { injection H as <-. intros Hp. discriminate Hp. }
  rewrite lookup_insert in H. destruct (decide ("osaka7" = k)).
  { injection H as <-. intros _. reflexivity. }
  rewrite lookup_empty in H. discriminate.
Qed.

Lemma routes_keep_flags_consistent_witness :
  keyed shelf
  /\ videosConsistent shelf
  /\ keyed (snd (processVideoRoute studio "rome01" shelf))
  /\ videosConsistent (snd (processVideoRoute studio "rome01" shelf)).
Proof.
  split; [exact shelf_keyed|]. split; [exact shelf_consistent|].
  exact (proj1 (routes_keep_flags_consistent studio shelf shelf_keyed shelf_consistent)
               "rome01").
Defined.

End Routes.

(** ** Scenarios of the specification, run on the model *)

Section Scenarios.

Import AIService SupabaseService Processing.

(** The model answers with one restaurant: one restaurant row and one
    recommendation are created and the video ends processed. *)
Example one_restaurant_found :
  let '(res, s) := processVideoRoute studio "rome01" shelf in
  status res = 200%nat
  /\ length (restaurants s) = 1%nat
  /\ length (recommendations s) = 1%nat
  /\ flagsAt s "rome01" = Some (true, None).
Proof. vm_compute. repeat split. Qed.

(** Both transcript sources fail and the description is empty: the video
    fails with the error recorded and stays unprocessed. *)
Example no_content_available :
  let '(res, s) := processVideoRoute studio "quiet1" quietShelf in
  res = {| status := 500;
           body := ErrorBody "No transcript or description available for processing" |}
  /\ flagsAt s "quiet1"
     = Some (false, Some "No transcript or description available for processing").
Proof. vm_compute. repeat split. Qed.

(** The model finds no restaurant: the video is still marked processed
    and nothing else is written. *)
Example no_restaurant_is_not_an_error :
  let '(res, s) := processVideoRoute nothingFound "rome01" shelf in
  status res = 200%nat
  /\ restaurants s = []
  /\ recommendations s = []
  /\ flagsAt s "rome01" = Some (true, None).
Proof. vm_compute. repeat split. Qed.

End Scenarios.
